(** * Wokemaps: tile tracking, projection, URL parsing and map state *)

From Stdlib Require Import ZArith QArith Qround Qabs List Bool Lia.
From Stdlib Require Import Reals Lra.
From Stdlib Require Import String Ascii.
Import ListNotations.

(* ------------------------------------------------------------------ *)
(** ** content-in-google-maps.js: WebGL tile movement tracking *)

Module TileTracker.

Open Scope Z_scope.

(** [const TILE_SIZE = 512;] *)
Definition TILE_SIZE : Z := 512.

(** The argument record of an intercepted [gl.scissor(x, y, width, height)]. *)
Record tile := mkTile { x : Z; y : Z; width : Z; height : Z }.

(** [{ ...tile, virtualX, virtualY }] *)
Record vtile := mkVTile { vt : tile; virtualX : Z; virtualY : Z }.

(** The anchor returned by [findAnchorTile]. *)
Record anchor := mkAnchor { ax : Z; ay : Z; scissor : tile }.

(** Result of [calculateFrameMovement]: [{ x, y, wrapped }]. *)
Record movement := mkMovement { mx : Z; my : Z; wrapped : bool }.

(** [Array.prototype.sort] with comparator [(a, b) => key a - key b] is a
    stable sort; it is written as insertion sort, each element placed after
    the elements whose key is not greater. *)
Fixpoint insert_by (key : tile -> Z) (t : tile) (l : list tile) : list tile :=
  match l with
  | [] => [t]
  | h :: r => if key h <=? key t then h :: insert_by key t r else t :: h :: r
  end.

(** Inserting the elements left to right keeps equal keys in input order. *)
Definition stable_sort (key : tile -> Z) (l : list tile) : list tile :=
  fold_left (fun acc t => insert_by key t acc) l [].

(** [arr[i]] for an integer index: [undefined] outside the array. *)
Definition nth_Z {A} (l : list A) (i : Z) : option A :=
  if i <? 0 then None else nth_error l (Z.to_nat i).

(** [arr.findIndex(p)]: the first index, or [-1]. *)
Fixpoint findIndex {A} (p : A -> bool) (l : list A) : Z :=
  match l with
  | [] => -1
  | h :: r => if p h then 0 else
      let k := findIndex p r in if k <? 0 then -1 else k + 1
  end.

(** The X branch of [calculateVirtualTilePosition]. *)
Definition virtual_x (t : tile) (rightTile : option tile) : Z :=
  if width t =? TILE_SIZE then x t
  else if 0 <? width t then
    match rightTile with
    | Some r =>
        if 0 <? width r then x t + width t - TILE_SIZE
        else if width r =? 0 then x r - width t
        else x t + width t - TILE_SIZE
    | None => x t + width t - TILE_SIZE
    end
  else x t.

(** The Y branch of [calculateVirtualTilePosition]; [tiles] is the
    unsorted input list. *)
Definition virtual_y (tiles : list tile) (t : tile) : Z :=
  if height t =? TILE_SIZE then y t
  else if 0 <? height t then
    let tilesAtSameX := stable_sort y (filter (fun u => x u =? x t) tiles) in
    let currentIndex := findIndex (fun u => y u =? y t) tilesAtSameX in
    match nth_Z tilesAtSameX (currentIndex + 1) with
    | Some b =>
        if 0 <? height b then y t + height t - TILE_SIZE
        else if height b =? 0 then y b - height t
        else y t + height t - TILE_SIZE
    | None => y t + height t - TILE_SIZE
    end
  else y t.

Fixpoint virtual_loop (tiles : list tile) (sorted : list tile) : list vtile :=
  match sorted with
  | [] => []
  | t :: rest =>
      mkVTile t (virtual_x t (hd_error rest)) (virtual_y tiles t)
        :: virtual_loop tiles rest
  end.

Definition calculateVirtualTilePosition (tiles : list tile) : list vtile :=
  virtual_loop tiles (stable_sort x tiles).

Definition findAnchorTile (tiles : list tile) : option anchor :=
  match tiles with
  | [] => None
  | _ =>
    let visibleTiles := filter (fun t => (0 <? width t) && (0 <? height t)
                          && (width t <=? TILE_SIZE) && (height t <=? TILE_SIZE)) tiles in
    match visibleTiles with
    | [] => None
    | _ =>
    match calculateVirtualTilePosition visibleTiles with
    | [] => None
    | v0 :: _ as vts =>
        let a := fold_left (fun a v =>
                   if virtualX v + virtualY v <? virtualX a + virtualY a then v else a)
                   vts v0 in
        Some (mkAnchor (virtualX a) (virtualY a) (vt a))
    end
    end
  end.

Definition calculateFrameMovement (fromAnchor toAnchor : option anchor)
  : option movement :=
  match fromAnchor, toAnchor with
  | Some f, Some t =>
      let deltaX := ax t - ax f in
      let deltaY := ay t - ay f in
      let adjustedDeltaX :=
        if 256 <? Z.abs deltaX
        then (if 0 <? deltaX then deltaX - 512 else deltaX + 512) else deltaX in
      let adjustedDeltaY :=
        if 256 <? Z.abs deltaY
        then (if 0 <? deltaY then deltaY - 512 else deltaY + 512) else deltaY in
      let wrapped := (256 <? Z.abs deltaX) || (256 <? Z.abs deltaY) in
      Some (mkMovement adjustedDeltaX adjustedDeltaY wrapped)
  | _, _ => None
  end.

(** A URL position as [extractMapParameters] of this file returns it
    (lat, lng, magnification); the tracker only stores it. *)
Record mapPosition := mkMapPosition { mp_lat : Q; mp_lng : Q; mp_mag : Q }.

(** [currentFrame: { tiles: [], anchor: null }] *)
Record frame := mkFrame { tiles : list tile; fanchor : option anchor }.

(** The [tileTracker] object (the canvas binding [canvasId] is left out:
    scissor events below are those of the bound canvas). *)
Record tracker := mkTracker {
  urlBaseline : option anchor;
  frameBaseline : option anchor;
  totalMovement : Z * Z;
  mapPos : option mapPosition;
  currentFrame : frame
}.

Definition initTracker : tracker :=
  mkTracker None None (0, 0) None (mkFrame [] None).

(** Messages posted to the isolated world. *)
Inductive message :=
| BaselineReset
| TileMovementMsg (mvx mvy : Z).

Definition set_anchor (st : tracker) (a : option anchor) : tracker :=
  mkTracker (urlBaseline st) (frameBaseline st) (totalMovement st) (mapPos st)
    (mkFrame (tiles (currentFrame st)) a).

Definition processFrame (st : tracker) : tracker * list message :=
  match tiles (currentFrame st) with
  | [] => (st, [])
  | _ =>
    match findAnchorTile (tiles (currentFrame st)) with
    | None => (st, [])
    | Some a =>
      let st := set_anchor st (Some a) in
      match urlBaseline st with
      | None =>
          (* URL baseline on the first anchor after a URL change; the frame's
             tiles are not cleared on this path *)
          (mkTracker (Some a) (Some a) (0, 0) (mapPos st) (currentFrame st),
           [BaselineReset])
      | Some _ =>
          let '(tot, msgs) :=
            match calculateFrameMovement (frameBaseline st) (Some a) with
            | Some m =>
                if negb (mx m =? 0) || negb (my m =? 0) then
                  let t := (fst (totalMovement st) + mx m,
                            snd (totalMovement st) + my m) in
                  (t, [TileMovementMsg (fst t) (snd t)])
                else (totalMovement st, [])
            | None => (totalMovement st, [])
            end in
          (mkTracker (urlBaseline st) (Some a) tot (mapPos st) (mkFrame [] None),
           msgs)
      end
    end
  end.

Definition resetBaselines (newPosition : option mapPosition) (st : tracker)
  : tracker * list message :=
  match frameBaseline st with
  | Some fb =>
      (mkTracker (Some fb) (frameBaseline st) (0, 0) newPosition (currentFrame st),
       [BaselineReset])
  | None =>
      (mkTracker None None (0, 0) newPosition (currentFrame st), [BaselineReset])
  end.

(** Inputs of the tracker: a scissor call on the bound canvas, the end of an
    animation frame (the [requestAnimationFrame] hook calls [processFrame]),
    a [popstate] URL change carrying a parsed position, and the drawer
    open/close click handler. *)
Inductive event :=
| Scissor (t : tile)
| FrameEnd
| UrlChange (p : mapPosition)
| DrawerToggle.

Definition step (st : tracker) (e : event) : tracker * list message :=
  match e with
  | Scissor t =>
      if (width t <=? TILE_SIZE) && (height t <=? TILE_SIZE) then
        (mkTracker (urlBaseline st) (frameBaseline st) (totalMovement st) (mapPos st)
           (mkFrame (tiles (currentFrame st) ++ [t]) (fanchor (currentFrame st))), [])
      else (st, [])
  | FrameEnd => processFrame st
  | UrlChange p => resetBaselines (Some p) st
  | DrawerToggle =>
      resetBaselines (mapPos st)
        (mkTracker (urlBaseline st) None (totalMovement st) (mapPos st) (currentFrame st))
  end.

End TileTracker.

(* ------------------------------------------------------------------ *)
(** ** coordinate-transformer.js: Web Mercator projection

    JavaScript numbers are modelled as real numbers: the development states
    the exact-arithmetic behaviour of the formulas, without rounding. *)

Module Projection.

Open Scope R_scope.

(** [Math.floor] *)
Definition Math_floor (r : R) : Z := Int_part r.

(** [Math.pow(2, zoom) * 256] *)
Definition worldSize (zoom : R) : R := Rpower 2 zoom * 256.

(** [CoordinateTransformer.googleMapsLatLngToPoint]; the [try] block cannot
    throw on numbers, the [null] result is kept in the type. *)
Definition googleMapsLatLngToPoint (lat lng zoom : R) : option (Z * Z) :=
  let normX := (lng + 180) / 360 in
  let latRad := lat * PI / 180 in
  let mercN := ln (tan (PI / 4 + latRad / 2)) in
  let normY := 1 / 2 - mercN / (2 * PI) in (* 0.5 - mercN / (2 * Math.PI) *)
  let ws := worldSize zoom in
  let pixelX := Math_floor (normX * ws) in
  let pixelY := Math_floor (normY * ws) in
  Some (pixelX, pixelY).

(** [CoordinateTransformer.calculatePixelOffset] *)
Definition calculatePixelOffset (fromLat fromLng toLat toLng zoom : R)
  : option (Z * Z) :=
  match googleMapsLatLngToPoint fromLat fromLng zoom,
        googleMapsLatLngToPoint toLat toLng zoom with
  | Some (fx, fy), Some (tx, ty) => Some ((tx - fx)%Z, (ty - fy)%Z)
  | _, _ => None
  end.

(** The inverse Mercator formula (not in the source; it is the formula the
    round-trip property refers to): world pixel back to degrees. *)
Definition inverse_lng (px : Z) (zoom : R) : R :=
  IZR px / worldSize zoom * 360 - 180.

Definition inverse_lat (py : Z) (zoom : R) : R :=
  (2 * atan (exp (PI * (1 - 2 * (IZR py / worldSize zoom)))) - PI / 2) * 180 / PI.

(** The edge of the Mercator-valid latitude range (about 85.0511 degrees):
    the latitude whose Mercator ordinate is [PI]. *)
Definition MAX_LAT : R := (2 * atan (exp PI) - PI / 2) * 180 / PI.

(** [Math.log2] *)
Definition log2 (x : R) : R := ln x / ln 2.

(** [Math.round] *)
Definition Math_round (r : R) : Z := Math_floor (r + 1 / 2).

(** [CoordinateTransformer.convertMetersToZoom]; [Math.max(0, z)] is [Rmax]. *)
Definition convertMetersToZoom (metersVisible lat viewportHeight : R) : R :=
  let EARTH_CIRCUMFERENCE := 40075017 in
  let TILE_SIZE := 256 in
  let equatorMetersPerPixelZoom0 := EARTH_CIRCUMFERENCE / TILE_SIZE in
  let currentMetersPerPixel := metersVisible / viewportHeight in
  let scaleFactorAtEquator := equatorMetersPerPixelZoom0 / currentMetersPerPixel in
  let zoomAtEquator := log2 scaleFactorAtEquator in
  let mercatorScaleFactor := 1 / cos (lat * PI / 180) in
  let adjustedZoom := zoomAtEquator - log2 mercatorScaleFactor in
  Rmax 0 adjustedZoom.

End Projection.

(* ------------------------------------------------------------------ *)
(** ** url-parser.js: [URLParser.extractMapParameters]

    The URL is a list of ASCII characters; numbers parsed by [parseFloat]
    are exact rationals, [NaN] is [None]. *)

Module URLParser.

Open Scope Z_scope.

Definition chars (u : string) : list ascii := list_ascii_of_string u.

(** [\d] (ASCII digits only in JavaScript). *)
Definition is_digit (c : ascii) : bool :=
  (48 <=? N_of_ascii c)%N && (N_of_ascii c <=? 57)%N.

(** The character class [[-\d.]]. *)
Definition is_num_char (c : ascii) : bool :=
  is_digit c || Ascii.eqb c "-"%char || Ascii.eqb c "."%char.

(** Longest prefix of class [p], and the rest. *)
Fixpoint span (p : ascii -> bool) (l : list ascii) : list ascii * list ascii :=
  match l with
  | c :: r => if p c then let '(a, b) := span p r in (c :: a, b) else ([], l)
  | [] => ([], [])
  end.

(** [(\d+\.?\d* )] followed by [term].  The group must end right before
    [term], which is neither a digit nor a dot, so the greedy scan below
    accepts exactly the strings the backtracking engine accepts, with the
    same captured text. *)
Definition match_number_then (term : ascii) (l : list ascii)
  : option (list ascii) :=
  let '(d1, r1) := span is_digit l in
  match d1 with
  | [] => None
  | _ =>
    let '(dot, r2) := match r1 with
                      | c :: r => if Ascii.eqb c "."%char then ([c], r) else ([], r1)
                      | [] => ([], r1)
                      end in
    let '(d2, r3) := span is_digit r2 in
    match r3 with
    | c :: _ => if Ascii.eqb c term then Some (d1 ++ dot ++ d2) else None
    | [] => None
    end
  end.

(** [/@([-\d.]+),([-\d.]+),(\d+\.?\d* )<term>/] anchored at the head of
    [l].  A group [[-\d.]+] followed by a comma is the maximal run of the
    class (the comma is not in the class). *)
Definition match_at (term : ascii) (l : list ascii)
  : option (list ascii * list ascii * list ascii) :=
  match l with
  | c :: r =>
    if Ascii.eqb c "@"%char then
      let '(g1, r1) := span is_num_char r in
      match g1, r1 with
      | _ :: _, c1 :: r1' =>
        if Ascii.eqb c1 ","%char then
          let '(g2, r2) := span is_num_char r1' in
          match g2, r2 with
          | _ :: _, c2 :: r2' =>
            if Ascii.eqb c2 ","%char then
              match match_number_then term r2' with
              | Some g3 => Some (g1, g2, g3)
              | None => None
              end
            else None
          | _, _ => None
          end
        else None
      | _, _ => None
      end
    else None
  | [] => None
  end.

(** [url.match(re)] without the [g] flag: the leftmost match of an
    anchored matcher. *)
Fixpoint first_match_with {A} (m : list ascii -> option A) (l : list ascii)
  : option A :=
  match l with
  | [] => None
  | _ :: r =>
    match m l with
    | Some g => Some g
    | None => first_match_with m r
    end
  end.

Definition first_match (term : ascii) (l : list ascii)
  : option (list ascii * list ascii * list ascii) :=
  first_match_with (match_at term) l.

Fixpoint digits_value (acc : Z) (l : list ascii) : Z :=
  match l with
  | [] => acc
  | c :: r => digits_value (acc * 10 + (Z.of_N (N_of_ascii c) - 48)) r
  end.

(** [parseFloat] on a string over [[-\d.]]: the longest prefix of the form
    [-?(\d+\.?\d*|\.\d+)], or [NaN] when there is none. *)
Definition parseFloat (l : list ascii) : option Q :=
  let '(sign, l1) := match l with
                     | c :: r => if Ascii.eqb c "-"%char then (-1, r) else (1, l)
                     | [] => (1, l)
                     end in
  let '(d1, r1) := span is_digit l1 in
  let d2 := match r1 with
            | c :: r => if Ascii.eqb c "."%char then fst (span is_digit r) else []
            | [] => []
            end in
  match d1, d2 with
  | [], [] => None
  | _, _ =>
    Some (Qmake (sign * (digits_value 0 d1 * 10 ^ Z.of_nat (List.length d2)
                         + digits_value 0 d2))
                (Pos.of_nat (Nat.pow 10 (List.length d2))))
  end.

(** The two result shapes: [{lat, lng, zoom}] and [{lat, lng, meters}]. *)
Inductive mapParams :=
| ZoomParams (lat lng zoom : Q)
| MetersParams (lat lng meters : Q).

Definition parse3 (g : list ascii * list ascii * list ascii) : option (Q * Q * Q) :=
  let '(g1, g2, g3) := g in
  match parseFloat g1, parseFloat g2, parseFloat g3 with
  | Some a, Some b, Some c => Some (a, b, c)
  | _, _, _ => None
  end.

Definition extractMapParameters (url : string) : option mapParams :=
  let u := chars url in
  let zoomResult :=
    match first_match "z"%char u with
    | Some g => parse3 g
    | None => None
    end in
  match zoomResult with
  | Some (lat, lng, zoom) => Some (ZoomParams lat lng zoom)
  | None =>
    match first_match "m"%char u with
    | Some g =>
      match parse3 g with
      | Some (lat, lng, m) => Some (MetersParams lat lng m)
      | None => None
      end
    | None => None
    end
  end.

End URLParser.

(* ------------------------------------------------------------------ *)
(** ** map-state-2d.js: [MapState2D]

    Numbers read from the URL and from CSS are rationals (they come from
    [parseFloat]); the projection is evaluated on their real values. *)

Module MapState2D.

Import URLParser.

(** [{ translateX, translateY, scale }] *)
Record transform := mkTransform { translateX : Q; translateY : Q; scale : Q }.

Definition identity : transform := mkTransform 0 0 1.

(** The change kinds passed to [notifyListeners]. *)
Inductive change := Position | CanvasTransformChange | ParentTransformChange | ZoomResolved.

(** The fields of a [MapState2D] instance.  [viewMode] is [None] once it
    has been assigned [position.mode], which no parser result carries
    ([undefined]).  [zoomInteractionTimeout] holds the deadline of the
    pending timer. *)
Record state := mkState {
  center : option (Q * Q);
  zoom : Z;
  viewMode : option string;
  canvasTransform : transform;
  parentTransform : transform;
  parentIsZero : bool;
  isPotentiallyZooming : bool;
  zoomInteractionTimeout : option Z
}.

Definition initState : state :=
  mkState None 0 (Some "map"%string) identity identity true false None.

(** What the browser shows the tracker: the URL, the parent's rounded
    dimensions ([getParentDimensions]), and the computed [transform] styles
    of the canvas and its parent after [parseTransform] ([None] for
    ['none']). *)
Record world := mkWorld {
  url : string;
  parentDims : Z * Z;
  canvasStyle : option transform;
  parentStyle : option transform
}.

Definition set_center (s : state) c := mkState c (zoom s) (viewMode s) (canvasTransform s)
  (parentTransform s) (parentIsZero s) (isPotentiallyZooming s) (zoomInteractionTimeout s).
Definition set_zoom (s : state) z := mkState (center s) z (viewMode s) (canvasTransform s)
  (parentTransform s) (parentIsZero s) (isPotentiallyZooming s) (zoomInteractionTimeout s).
Definition set_viewMode (s : state) v := mkState (center s) (zoom s) v (canvasTransform s)
  (parentTransform s) (parentIsZero s) (isPotentiallyZooming s) (zoomInteractionTimeout s).
Definition set_canvasTransform (s : state) t := mkState (center s) (zoom s) (viewMode s) t
  (parentTransform s) (parentIsZero s) (isPotentiallyZooming s) (zoomInteractionTimeout s).
Definition set_parent (s : state) t z := mkState (center s) (zoom s) (viewMode s)
  (canvasTransform s) t z (isPotentiallyZooming s) (zoomInteractionTimeout s).
Definition set_timer (s : state) p t := mkState (center s) (zoom s) (viewMode s)
  (canvasTransform s) (parentTransform s) (parentIsZero s) p t.

(** [Math.round] of a rational: [floor(x + 0.5)]. *)
Definition Math_round_Q (q : Q) : Z := Qfloor (q + (1 # 2)).

(** [<] on numbers. *)
Definition ltQ (a b : Q) : bool := negb (Qle_bool b a).

(** [!==] on numbers. *)
Definition neqQ (a b : Q) : bool := negb (Qeq_bool a b).

Definition updatePositionFromUrl (w : world) (s : state) : state * list change :=
  if negb (parentIsZero s) then (s, []) else
  match extractMapParameters (url w) with
  | None => (s, [])
  | Some position =>
    let '(plat, plng) := match position with
                         | ZoomParams a b _ | MetersParams a b _ => (a, b)
                         end in
    let s := set_viewMode s None in
    let '(s, c1) :=
      match center s with
      | Some (clat, clng) =>
          if neqQ clat plat || neqQ clng plng
          then (set_center s (Some (plat, plng)), true) else (s, false)
      | None => (set_center s (Some (plat, plng)), true)
      end in
    let calculatedZoom :=
      match position with
      | ZoomParams _ _ z => Math_round_Q z
      | MetersParams _ _ m =>
          Projection.Math_round
            (Projection.convertMetersToZoom (Q2R m) (Q2R plat) (IZR (snd (parentDims w))))
      end in
    let '(s, c2) := if negb (zoom s =? calculatedZoom)%Z
                    then (set_zoom s calculatedZoom, true) else (s, false) in
    (s, if c1 || c2 then [Position] else [])
  end.

Definition isTransformDifferent (n o : transform) : bool :=
  neqQ (translateX n) (translateX o) || neqQ (translateY n) (translateY o)
  || neqQ (scale n) (scale o).

Definition updateCanvasTransform (w : world) (s : state) : state * list change :=
  match canvasStyle w with
  | Some t =>
      if isTransformDifferent t (canvasTransform s)
      then (set_canvasTransform s t, [CanvasTransformChange]) else (s, [])
  | None => (s, [])
  end.

Definition updateParentTransform (w : world) (s : state) : state * list change :=
  let t := match parentStyle w with Some t => t | None => identity end in
  if isTransformDifferent t (parentTransform s) then
    let wasZero := parentIsZero s in
    let isZero := ltQ (Qabs (translateX t)) 1 && ltQ (Qabs (translateY t)) 1 in
    let s := set_parent s t isZero in
    let '(s, cs) := if negb wasZero && isZero then updatePositionFromUrl w s else (s, []) in
    (s, cs ++ [ParentTransformChange])
  else (s, []).

(** [mapLatLngToCanvas]: the projected offset from the center, plus half the
    parent dimensions, minus the canvas translation. *)
Definition mapLatLngToCanvas (w : world) (s : state) (lat lng : R) : option (R * R) :=
  match center s with
  | None => None
  | Some (clat, clng) =>
    match Projection.calculatePixelOffset (Q2R clat) (Q2R clng) lat lng (IZR (zoom s)) with
    | None => None
    | Some (ox, oy) =>
      let canvasCenterX := (IZR (fst (parentDims w)) / 2)%R in
      let canvasCenterY := (IZR (snd (parentDims w)) / 2)%R in
      Some ((canvasCenterX + IZR ox - Q2R (translateX (canvasTransform s)))%R,
            (canvasCenterY + IZR oy - Q2R (translateY (canvasTransform s)))%R)
    end
  end.

(** Timer callback of [handlePotentialZoomInteraction]. *)
Definition zoomTimeoutFired (w : world) (s : state) : state * list change :=
  let s := set_timer s false None in
  let '(s, c1) := updatePositionFromUrl w s in
  let '(s, c2) := updateCanvasTransform w s in
  let '(s, c3) := updateParentTransform w s in
  (s, c1 ++ c2 ++ c3 ++ [ZoomResolved]).

(** [handlePotentialZoomInteraction] at time [now] (ms): clear any pending
    timer and start a new one for [now + 1000]. *)
Definition handlePotentialZoomInteraction (now : Z) (s : state) : state :=
  set_timer s true (Some (now + 1000)%Z).

Definition handleUrlChanged (w : world) (s : state) : state * list change :=
  if parentIsZero s then
    let '(s, c1) := updatePositionFromUrl w s in
    match zoomInteractionTimeout s with
    | Some _ =>
        let s := set_timer s false None in
        let '(s, c2) := updateCanvasTransform w s in
        let '(s, c3) := updateParentTransform w s in
        (s, c1 ++ c2 ++ c3 ++ [ZoomResolved])
    | None => (s, c1)
    end
  else (s, []).

(** The event loop around the tracker: a qualifying input or a
    [wokemaps_urlChanged] event at a time, with the browser state of that
    moment.  A pending timer whose deadline is not after the next event runs
    first, seeing the browser state of the previous event. *)
Inductive input := Interaction | UrlChanged.

Definition fire_due (now : Z) (w : world) (s : state) : state * list (Z * change) :=
  match zoomInteractionTimeout s with
  | Some d =>
      if (d <=? now)%Z then
        let '(s, cs) := zoomTimeoutFired w s in (s, map (fun c => (d, c)) cs)
      else (s, [])
  | None => (s, [])
  end.

Definition handle (now : Z) (w : world) (i : input) (s : state) : state * list (Z * change) :=
  match i with
  | Interaction => (handlePotentialZoomInteraction now s, [])
  | UrlChanged => let '(s, cs) := handleUrlChanged w s in (s, map (fun c => (now, c)) cs)
  end.

(** Run a trace from state [s], the browser showing [w] before the first
    event; after the last event the pending timer, if any, runs. *)
Fixpoint run (w : world) (s : state) (tr : list (Z * world * input))
  : state * list (Z * change) :=
  match tr with
  | [] =>
    match zoomInteractionTimeout s with
    | Some d => let '(s, cs) := zoomTimeoutFired w s in (s, map (fun c => (d, c)) cs)
    | None => (s, [])
    end
  | (now, w', i) :: rest =>
    let '(s1, l1) := fire_due now w s in
    let '(s2, l2) := handle now w' i s1 in
    let '(s3, l3) := run w' s2 rest in
    (s3, l1 ++ l2 ++ l3)
  end.

End MapState2D.

(* ------------------------------------------------------------------ *)
(** ** overlay-engine.js: [OverlayEngine.redrawAllLabels] *)

Module OverlayEngine.

(** A label after [getLabelProperties]: its [zoomLimits] pair and the rest
    of its properties (text, position, style) left abstract. *)
Record label {A : Type} := mkLabel { zoomLimits : Q * Q; props : A }.
Arguments label : clear implicits.

Section Redraw.
Context {A : Type}.
(** Drawing one label to the overlay; [true] when it was drawn (it is
    found on screen). *)
Variable renderLabelToOverlay : label A -> bool.

(** [redrawAllLabels], as the list of labels drawn: [ready] stands for the
    overlay canvas, its context and [mapState.center] being present. *)
Definition redrawAllLabels (ready isPotentiallyZooming : bool) (zoom : Q)
  (allLabels : list (label A)) : list (label A) :=
  if negb ready then [] else
  if isPotentiallyZooming then [] else
  filter (fun l => Qle_bool (fst (zoomLimits l)) zoom
                   && negb (Qle_bool (snd (zoomLimits l)) zoom)
                   && renderLabelToOverlay l) allLabels.

End Redraw.

End OverlayEngine.

(* ------------------------------------------------------------------ *)
(** ** The raster content script (unnamed/part_006, with
    label-renderer.js and the raster [MapCanvas]) *)

Module Legacy.

(** The closure variables of the raster content script that the
    conversion reads. *)
Record state := mkState {
  lastCenter : option (Q * Q);
  lastZoom : option Z
}.

(** [lastZoom] used as a number: [null] acts as [0]. *)
Definition zoom_num (z : option Z) : Z := match z with Some z => z | None => 0%Z end.

(** [LabelRenderer.googleMapsLatLngToPoint]: world size [2^zoom * tileSize]. *)
Definition labelLatLngToPoint (tileSize : Z) (lat lng zoom : R) : option (Z * Z) :=
  let normX := ((lng + 180) / 360)%R in
  let latRad := (lat * PI / 180)%R in
  let mercN := ln (tan (PI / 4 + latRad / 2)) in
  let normY := (1 / 2 - mercN / (2 * PI))%R in
  let ws := (Rpower 2 zoom * IZR tileSize)%R in
  Some (Projection.Math_floor (normX * ws), Projection.Math_floor (normY * ws)).

(** The display parameters of the raster [MapCanvas] ([tileSize] and
    [transformMultiplier], chosen from [devicePixelRatio]) and what it reads
    from the page. *)
Record canvasView := mkCanvasView {
  tileSize : Z;
  transformMultiplier : R;
  canvasDims : Z * Z;
  parentDimensions : Z * Z;
  canvasTranslate : R * R
}.

(** [detectDisplayType] *)
Definition detectDisplayType (devicePixelRatio : R) : Z * R :=
  if Rlt_dec (3 / 2) devicePixelRatio then (512%Z, 2%R) else (256%Z, 1%R).

(** [latLngToCanvasPixel] *)
Definition latLngToCanvasPixel (cv : canvasView) (s : state) (lat lng : R)
  : option (R * R) :=
  match lastCenter s with
  | None => None
  | Some (clat, clng) =>
    let ts := tileSize cv in
    let z := IZR (zoom_num (lastZoom s)) in
    match labelLatLngToPoint ts lat lng z, labelLatLngToPoint ts (Q2R clat) (Q2R clng) z with
    | Some (lx, ly), Some (cx, cy) =>
      let worldOffsetX := IZR (lx - cx) in
      let worldOffsetY := IZR (ly - cy) in
      let canvasCenterX := (IZR (fst (canvasDims cv)) / 2)%R in
      let canvasCenterY := (IZR (snd (canvasDims cv)) / 2)%R in
      let tileAlignmentX := IZR (- ts + (fst (parentDimensions cv) mod (ts / 2))) in
      let tileAlignmentY := IZR (- ts + (snd (parentDimensions cv) mod (ts / 2))) in
      Some ((canvasCenterX + worldOffsetX
             - fst (canvasTranslate cv) * transformMultiplier cv + tileAlignmentX)%R,
            (canvasCenterY + worldOffsetY
             - snd (canvasTranslate cv) * transformMultiplier cv + tileAlignmentY)%R)
    | _, _ => None
    end
  end.

End Legacy.

(* ------------------------------------------------------------------ *)
(** ** map-state-2d.js: [updatePositionFromUrl] over JavaScript numbers

    The zoom the refresh computes from a meters URL goes through divisions,
    [Math.log2], [Math.cos] and [Math.max], which in JavaScript can give
    [Infinity] or [NaN].  Here numbers are exact reals extended with the
    two infinities and [NaN], with the IEEE rules for those values; the
    zeros that occur (a parsed [0m], a rounded parent height of [0]) are
    [+0]. *)

Module MapState2DNum.

Import URLParser MapState2D.
Open Scope R_scope.

Inductive num := Fin (r : R) | Inf (pos : bool) | NaN.

(** [a / b] *)
Definition num_div (a b : num) : num :=
  match a, b with
  | NaN, _ | _, NaN => NaN
  | Fin x, Fin y =>
      if Req_dec_T y 0 then
        (if Rlt_dec 0 x then Inf true else if Rlt_dec x 0 then Inf false else NaN)
      else Fin (x / y)
  | Fin _, Inf _ => Fin 0
  | Inf p, Fin y => if Rlt_dec y 0 then Inf (negb p) else Inf p
  | Inf _, Inf _ => NaN
  end.

(** [a - b] *)
Definition num_sub (a b : num) : num :=
  match a, b with
  | NaN, _ | _, NaN => NaN
  | Fin x, Fin y => Fin (x - y)
  | Fin _, Inf p => Inf (negb p)
  | Inf p, Fin _ => Inf p
  | Inf p, Inf q => if Bool.eqb p q then NaN else Inf p
  end.

(** [Math.log2] *)
Definition num_log2 (a : num) : num :=
  match a with
  | Fin x =>
      if Rlt_dec 0 x then Fin (Projection.log2 x)
      else if Req_dec_T x 0 then Inf false else NaN
  | Inf true => Inf true
  | Inf false => NaN
  | NaN => NaN
  end.

(** [Math.cos] *)
Definition num_cos (a : num) : num :=
  match a with Fin x => Fin (cos x) | _ => NaN end.

(** [Math.max(0, a)] *)
Definition num_max0 (a : num) : num :=
  match a with
  | Fin x => Fin (Rmax 0 x)
  | Inf true => Inf true
  | Inf false => Fin 0
  | NaN => NaN
  end.

(** [Math.round] *)
Definition num_round (a : num) : num :=
  match a with Fin x => Fin (IZR (Projection.Math_round x)) | _ => a end.

(** [a !== b] *)
Definition num_neq (a b : num) : bool :=
  match a, b with
  | Fin x, Fin y => if Req_dec_T x y then false else true
  | Inf p, Inf q => negb (Bool.eqb p q)
  | _, _ => true
  end.

(** [CoordinateTransformer.convertMetersToZoom] on numbers. *)
Definition convertMetersToZoom (metersVisible lat viewportHeight : num) : num :=
  let EARTH_CIRCUMFERENCE := Fin 40075017 in
  let TILE_SIZE := Fin 256 in
  let equatorMetersPerPixelZoom0 := num_div EARTH_CIRCUMFERENCE TILE_SIZE in
  let currentMetersPerPixel := num_div metersVisible viewportHeight in
  let scaleFactorAtEquator := num_div equatorMetersPerPixelZoom0 currentMetersPerPixel in
  let zoomAtEquator := num_log2 scaleFactorAtEquator in
  let latRad := match lat with Fin l => Fin (l * PI / 180) | _ => NaN end in
  let mercatorScaleFactor := num_div (Fin 1) (num_cos latRad) in
  let adjustedZoom := num_sub zoomAtEquator (num_log2 mercatorScaleFactor) in
  num_max0 adjustedZoom.

(** The fields of a [MapState2D] that [updatePositionFromUrl] reads or
    writes, with [zoom] a number; the other fields are left alone by it. *)
Record state := mkState {
  center : option (Q * Q);
  zoom : num;
  viewMode : option string;
  parentIsZero : bool
}.

Definition initState : state := mkState None (Fin 0) (Some "map"%string) true.

(** [calculatedZoom] for a parsed position. *)
Definition calculatedZoom (w : world) (position : mapParams) : num :=
  match position with
  | ZoomParams _ _ z => num_round (Fin (Q2R z))
  | MetersParams plat _ m =>
      num_round (convertMetersToZoom (Fin (Q2R m)) (Fin (Q2R plat))
                   (Fin (IZR (snd (parentDims w)))))
  end.

Definition updatePositionFromUrl (w : world) (s : state) : state * list change :=
  if negb (parentIsZero s) then (s, []) else
  match extractMapParameters (url w) with
  | None => (s, [])
  | Some position =>
    let '(plat, plng) := match position with
                         | ZoomParams a b _ | MetersParams a b _ => (a, b)
                         end in
    let s := mkState (center s) (zoom s) None (parentIsZero s) in
    let '(s, c1) :=
      match center s with
      | Some (clat, clng) =>
          if neqQ clat plat || neqQ clng plng
          then (mkState (Some (plat, plng)) (zoom s) (viewMode s) (parentIsZero s), true)
          else (s, false)
      | None => (mkState (Some (plat, plng)) (zoom s) (viewMode s) (parentIsZero s), true)
      end in
    let cz := calculatedZoom w position in
    let '(s, c2) := if num_neq (zoom s) cz
                    then (mkState (center s) cz (viewMode s) (parentIsZero s), true)
                    else (s, false) in
    (s, if c1 || c2 then [Position] else [])
  end.

End MapState2DNum.

(* ================================================================== *)
(** * Theorems *)

Module TileTrackerFacts.
Import TileTracker.
Open Scope Z_scope.

(** The per-axis unwrap in the words of the spec: a delta of magnitude at
    most half a tile unit (256) is kept, a larger one is moved one full tile
    unit (512) toward zero. *)
Definition spec_unwrap (d : Z) : Z :=
  if Z.abs d <=? 256 then d else if 0 <? d then d - 512 else d + 512.

Definition is_reset (e : event) : bool :=
  match e with UrlChange _ | DrawerToggle => true | _ => false end.

Ltac split_matches :=
  repeat match goal with
         | |- context [match ?c with _ => _ end] => destruct c eqn:?
         | H : context [match ?c with _ => _ end] |- _ => destruct c eqn:?
         end.

(** C2: [calculateFrameMovement] returns the raw per-axis delta when its
    magnitude is at most 256 and otherwise moves it one tile unit (512)
    toward zero, with [wrapped] set exactly when some axis was corrected;
    raw delta 400 gives -112 and raw delta -400 gives 112. *)
Theorem calculateFrameMovement_unwrap :
  (forall f t : anchor,
     calculateFrameMovement (Some f) (Some t) =
     Some (mkMovement (spec_unwrap (ax t - ax f)) (spec_unwrap (ay t - ay f))
             (negb (Z.abs (ax t - ax f) <=? 256) || negb (Z.abs (ay t - ay f) <=? 256))))
  /\ (forall s s' : tile,
        option_map mx (calculateFrameMovement (Some (mkAnchor 0 0 s))
                         (Some (mkAnchor 400 0 s'))) = Some (-112))
  /\ (forall s s' : tile,
        option_map mx (calculateFrameMovement (Some (mkAnchor 400 0 s))
                         (Some (mkAnchor 0 0 s'))) = Some 112).
Proof.
  split; [|split].
  - intros f t. unfold calculateFrameMovement, spec_unwrap.
    set (dx := ax t - ax f). set (dy := ay t - ay f).
    rewrite !Z.leb_antisym, !negb_involutive.
    destruct (256 <? Z.abs dx), (256 <? Z.abs dy); reflexivity.
  - intros s s'. reflexivity.
  - intros s s'. reflexivity.
Qed.


(** A frame delta added to the running vector ([null] adds nothing). *)
Definition add_movement (tot : Z * Z) (m : option movement) : Z * Z :=
  match m with
  | Some m => (fst tot + mx m, snd tot + my m)
  | None => tot
  end.

(** C3 (amended): on every tracker step, [totalMovement] is reset to
    [{0, 0}] by each URL change or drawer reset ([resetBaselines], with or
    without a frame baseline to capture) and when the first anchor after a
    reset becomes the URL baseline.  On any other step it is unchanged,
    except that once a URL baseline exists the end of a frame adds exactly
    that frame's [calculateFrameMovement] delta (from the frame baseline to
    the frame's anchor), whether that delta was wrap-corrected or not. *)
Theorem tracker_movement_reset_accumulate :
  forall (st : tracker) (e : event),
    let st' := fst (step st e) in
    (is_reset e = true -> totalMovement st' = (0, 0)) /\
    (urlBaseline st = None -> urlBaseline st' <> None -> totalMovement st' = (0, 0)) /\
    (urlBaseline st = None -> urlBaseline st' = None -> totalMovement st' = totalMovement st
       \/ is_reset e = true) /\
    (is_reset e = false -> urlBaseline st <> None ->
       totalMovement st' =
         match e with
         | FrameEnd => add_movement (totalMovement st)
                         (calculateFrameMovement (frameBaseline st)
                            (findAnchorTile (tiles (currentFrame st))))
         | _ => totalMovement st
         end).
Proof.
  intros st e st'. subst st'.
  destruct e as [t| |p|]; simpl.
  - split_matches; simpl; repeat split; intros; auto; congruence.
  - unfold processFrame.
    destruct (tiles (currentFrame st)) as [|t0 ts] eqn:Et.
    + simpl. repeat split; intros; auto; try congruence.
      destruct (frameBaseline st); reflexivity.
    + destruct (findAnchorTile (t0 :: ts)) as [a|] eqn:Ea; simpl;
        [|repeat split; intros; auto; try congruence; destruct (frameBaseline st); reflexivity].
      destruct (urlBaseline st) as [u|] eqn:Eu; simpl;
        [|repeat split; intros; try reflexivity; try congruence].
      destruct (calculateFrameMovement (frameBaseline st) (Some a)) as [m|] eqn:Em; simpl;
        [|repeat split; intros; try reflexivity; congruence].
      destruct (negb (mx m =? 0) || negb (my m =? 0)) eqn:Ez; simpl;
        repeat split; intros; try reflexivity; try congruence.
      apply orb_false_iff in Ez as [E1 E2].
      apply negb_false_iff, Z.eqb_eq in E1. apply negb_false_iff, Z.eqb_eq in E2.
      rewrite E1, E2, !Z.add_0_r. destruct (totalMovement st); reflexivity.
  - unfold resetBaselines. split_matches; simpl; repeat split; intros;
      first [reflexivity | discriminate | right; reflexivity].
  - unfold resetBaselines. simpl. repeat split; intros;
      first [reflexivity | discriminate | right; reflexivity].
Qed.

(** Tracker state for C3: URL and frame baselines at virtual [0, 0] and one
    full tile scissored at [400, 0] in the current frame. *)
Definition a0 : anchor := mkAnchor 0 0 (mkTile 0 0 512 512).
Definition st_wrap : tracker :=
  mkTracker (Some a0) (Some a0) (0, 0) None (mkFrame [mkTile 400 0 512 512] None).

(** C3 counterexample: the frame delta of [st_wrap] is classified as wrapped
    ([400] corrected to [-112]), and [processFrame] still adds it to the
    running vector, which becomes [{-112, 0}]. *)
Lemma tracker_accumulates_wrapped_delta :
  calculateFrameMovement (frameBaseline st_wrap) (findAnchorTile (tiles (currentFrame st_wrap)))
    = Some (mkMovement (-112) 0 true) /\
  totalMovement (fst (step st_wrap FrameEnd)) = (-112, 0).
Proof. split; vm_compute; reflexivity. Qed.

End TileTrackerFacts.

Module ProjectionFacts.
Import Projection.
Open Scope R_scope.

Lemma atan_exp_lipschitz (a b : R) :
  Rabs (atan (exp a) - atan (exp b)) <= / 2 * Rabs (a - b).
Proof.
  destruct (MVT_abs (comp atan exp) (fun t => / (1 + exp t ^ 2) * exp t) b a)
    as [c [Hc _]].
  { intros c _. apply (derivable_pt_lim_comp exp atan).
    - apply derivable_pt_lim_exp.
    - apply derivable_pt_lim_atan. }
  unfold comp in Hc. rewrite Hc.
  apply Rmult_le_compat_r; [apply Rabs_pos|].
  assert (He := exp_pos c).
  set (e := exp c) in *.
  assert (Hd : 0 < 1 + e ^ 2) by nra.
  rewrite Rabs_right.
  2:{ apply Rle_ge, Rmult_le_pos; [apply Rlt_le, Rinv_0_lt_compat|]; lra. }
  apply (Rmult_le_reg_l (2 * (1 + e ^ 2))); [lra|].
  replace (2 * (1 + e ^ 2) * (/ (1 + e ^ 2) * e)) with (2 * e) by (field; lra).
  replace (2 * (1 + e ^ 2) * / 2) with (1 + e ^ 2) by field.
  assert (Hsq := pow2_ge_0 (e - 1)). nra.
Qed.

Lemma worldSize_pos (z : R) : 0 < worldSize z.
Proof. unfold worldSize, Rpower. assert (H := exp_pos (z * ln 2)). lra. Qed.

Lemma worldSize_0 : worldSize 0 = 256.
Proof. unfold worldSize. rewrite Rpower_O; lra. Qed.

Lemma Math_floor_spec (r : R) :
  IZR (Math_floor r) <= r /\ r - 1 < IZR (Math_floor r).
Proof. unfold Math_floor. destruct (base_Int_part r). lra. Qed.

(** A floor of a value in [[0, 256]] is an integer in [[0, 256]]. *)
Lemma Math_floor_range (r : R) :
  0 <= r <= 256 -> (0 <= Math_floor r <= 256)%Z.
Proof.
  intros Hr. destruct (Math_floor_spec r) as [H1 H2].
  split.
  - assert (-1 < Math_floor r)%Z by (apply lt_IZR; simpl; lra). lia.
  - apply le_IZR. simpl. lra.
Qed.

(** [|p - r| <= 1] scaled by a positive unit. *)
Lemma scaled_pixel_error (d k : R) :
  0 < k -> -1 <= d <= 1 -> Rabs (d * k) <= k.
Proof.
  intros Hk Hd. rewrite Rabs_mult, (Rabs_right k) by lra.
  rewrite <- (Rmult_1_l k) at 2. apply Rmult_le_compat_r; [lra|].
  apply Rabs_le. lra.
Qed.

Lemma tan_le_of_le_atan (u v : R) :
  - PI / 2 < u -> u <= atan v -> tan u <= v.
Proof.
  intros Hu Huv. destruct (atan_bound v) as [_ Hv].
  destruct (Rle_lt_or_eq_dec _ _ Huv) as [Hlt | Heq].
  - left. rewrite <- (tan_atan v) at 1. apply tan_increasing; lra.
  - right. rewrite Heq. apply tan_atan.
Qed.

Lemma le_tan_of_atan_le (u v : R) :
  atan v <= u -> u < PI / 2 -> v <= tan u.
Proof.
  intros Hvu Hu. destruct (atan_bound v) as [Hv _].
  destruct (Rle_lt_or_eq_dec _ _ Hvu) as [Hlt | Heq].
  - left. rewrite <- (tan_atan v) at 1. apply tan_increasing; lra.
  - right. rewrite <- Heq. symmetry. apply tan_atan.
Qed.

Lemma ln_le_compat (a b : R) : 0 < a -> a <= b -> ln a <= ln b.
Proof.
  intros Ha Hab. destruct (Rle_lt_or_eq_dec _ _ Hab) as [Hlt | Heq].
  - left. apply ln_increasing; assumption.
  - right. rewrite Heq. reflexivity.
Qed.

(** The Gudermannian function inverts the Mercator ordinate. *)
Lemma gd_mercator (phi : R) :
  - PI / 2 < phi < PI / 2 ->
  2 * atan (exp (ln (tan (PI / 4 + phi / 2)))) - PI / 2 = phi.
Proof.
  intros Hphi.
  assert (Ht : 0 < tan (PI / 4 + phi / 2)) by (apply tan_gt_0; lra).
  rewrite exp_ln by exact Ht. rewrite atan_tan by lra. lra.
Qed.

Lemma MAX_LAT_rad_lt : 2 * atan (exp PI) - PI / 2 < PI / 2.
Proof. destruct (atan_bound (exp PI)). lra. Qed.

Lemma MAX_LAT_rad_pos : 0 < 2 * atan (exp PI) - PI / 2.
Proof.
  assert (H := atan_increasing 1 (exp PI)).
  rewrite atan_1 in H.
  assert (1 < exp PI).
  { rewrite <- exp_0. apply exp_increasing. apply PI_RGT_0. }
  specialize (H H0). lra.
Qed.

Lemma MAX_LAT_pos : 0 < MAX_LAT.
Proof.
  unfold MAX_LAT. assert (H := MAX_LAT_rad_pos). assert (HP := PI_RGT_0).
  unfold Rdiv. apply Rmult_lt_0_compat; [nra|]. apply Rinv_0_lt_compat. lra.
Qed.

(** C1: for a latitude in the Mercator-valid range [[-MAX_LAT, MAX_LAT]]
    (about 85.0511 degrees), a longitude in [[-180, 180]] and any zoom,
    [googleMapsLatLngToPoint] returns world pixels from which the inverse
    Mercator formula recovers longitude and latitude within one pixel's
    worth of degrees ([360 / worldSize zoom]); at zoom 0 both pixel
    coordinates lie in [[0, 256]]. *)
Theorem googleMapsLatLngToPoint_roundtrip (lat lng zoom : R) :
  - MAX_LAT <= lat <= MAX_LAT -> -180 <= lng <= 180 ->
  exists px py,
    googleMapsLatLngToPoint lat lng zoom = Some (px, py) /\
    Rabs (inverse_lng px zoom - lng) <= 360 / worldSize zoom /\
    Rabs (inverse_lat py zoom - lat) <= 360 / worldSize zoom /\
    (zoom = 0 -> (0 <= px <= 256)%Z /\ (0 <= py <= 256)%Z).
Proof.
  intros Hlat Hlng.
  assert (HP := PI_RGT_0).
  assert (HW := worldSize_pos zoom).
  set (W := worldSize zoom) in *.
  set (g := 2 * atan (exp PI) - PI / 2).
  assert (Hg := MAX_LAT_rad_lt). fold g in Hg.
  set (phi := lat * PI / 180).
  assert (Hphi : - g <= phi <= g).
  { unfold MAX_LAT in Hlat. fold g in Hlat. unfold phi.
    assert (Hk : 0 < PI / 180) by lra.
    replace (lat * PI / 180) with (lat * (PI / 180)) by field.
    split.
    - replace (- g) with (- (g * 180 / PI) * (PI / 180)) by (field; lra).
      apply Rmult_le_compat_r; lra.
    - replace g with (g * 180 / PI * (PI / 180)) by (field; lra).
      apply Rmult_le_compat_r; lra. }
  set (u := PI / 4 + phi / 2).
  assert (Hu : 0 < u < PI / 2) by (unfold u; lra).
  assert (Htan : 0 < tan u) by (apply tan_gt_0; lra).
  set (nx := (lng + 180) / 360).
  set (mercN := ln (tan u)).
  set (ny := 1 / 2 - mercN / (2 * PI)).
  exists (Math_floor (nx * W)), (Math_floor (ny * W)).
  split; [reflexivity|].
  destruct (Math_floor_spec (nx * W)) as [Hx1 Hx2].
  destruct (Math_floor_spec (ny * W)) as [Hy1 Hy2].
  set (p := IZR (Math_floor (nx * W))) in *.
  set (q := IZR (Math_floor (ny * W))) in *.
  split; [|split].
  - (* longitude *)
    unfold inverse_lng. fold W p.
    replace (p / W * 360 - 180 - lng) with ((p - nx * W) * (360 / W))
      by (unfold nx; field; lra).
    apply scaled_pixel_error; [unfold Rdiv; apply Rmult_lt_0_compat;
      [lra | apply Rinv_0_lt_compat; lra] | lra].
  - (* latitude *)
    unfold inverse_lat. fold W q.
    assert (Hlat' : lat = (2 * atan (exp (PI * (1 - 2 * ny))) - PI / 2) * 180 / PI).
    { replace (PI * (1 - 2 * ny)) with mercN by (unfold ny; field; lra).
      unfold mercN, u. rewrite gd_mercator by lra. unfold phi. field; lra. }
    rewrite Hlat'.
    set (t' := PI * (1 - 2 * (q / W))). set (t := PI * (1 - 2 * ny)).
    replace ((2 * atan (exp t') - PI / 2) * 180 / PI - (2 * atan (exp t) - PI / 2) * 180 / PI)
      with ((atan (exp t') - atan (exp t)) * (360 / PI)) by (field; lra).
    rewrite Rabs_mult, (Rabs_right (360 / PI))
      by (apply Rle_ge; unfold Rdiv; apply Rmult_le_pos; [lra | left; apply Rinv_0_lt_compat; lra]).
    eapply Rle_trans.
    { apply Rmult_le_compat_r; [| apply atan_exp_lipschitz].
      unfold Rdiv; apply Rmult_le_pos; [lra | left; apply Rinv_0_lt_compat; lra]. }
    replace (t' - t) with ((ny * W - q) * (2 * PI / W)) by (unfold t, t'; field; lra).
    rewrite Rabs_mult, (Rabs_right (2 * PI / W))
      by (apply Rle_ge; unfold Rdiv; apply Rmult_le_pos; [lra | left; apply Rinv_0_lt_compat; lra]).
    replace (/ 2 * (Rabs (ny * W - q) * (2 * PI / W)) * (360 / PI))
      with (Rabs (ny * W - q) * (360 / W)) by (field; lra).
    rewrite <- (Rmult_1_l (360 / W)) at 2. apply Rmult_le_compat_r.
    + unfold Rdiv; apply Rmult_le_pos; [lra | left; apply Rinv_0_lt_compat; lra].
    + apply Rabs_le. lra.
  - (* zoom 0 *)
    intros Hz. subst zoom. unfold W in *. rewrite worldSize_0 in *.
    split; apply Math_floor_range.
    + unfold nx. lra.
    + assert (Hub : tan u <= exp PI).
      { apply tan_le_of_le_atan; [lra|]. unfold u, g in *. lra. }
      assert (Hlb : exp (- PI) <= tan u).
      { apply le_tan_of_atan_le; [| lra].
        rewrite exp_Ropp, atan_inv by apply exp_pos. unfold u, g in *. lra. }
      assert (Hm1 : mercN <= PI).
      { unfold mercN. rewrite <- (ln_exp PI). apply ln_le_compat; assumption. }
      assert (Hm2 : - PI <= mercN).
      { unfold mercN. rewrite <- (ln_exp (- PI)). apply ln_le_compat;
          [apply exp_pos | assumption]. }
      assert (Hd1 : mercN / (2 * PI) <= / 2).
      { apply (Rmult_le_reg_r (2 * PI)); [lra|].
        replace (mercN / (2 * PI) * (2 * PI)) with mercN by (field; lra). lra. }
      assert (Hd2 : - / 2 <= mercN / (2 * PI)).
      { apply (Rmult_le_reg_r (2 * PI)); [lra|].
        replace (mercN / (2 * PI) * (2 * PI)) with mercN by (field; lra). lra. }
      unfold ny. lra.
Qed.

Lemma googleMapsLatLngToPoint_roundtrip_witness :
  (- MAX_LAT <= 0 <= MAX_LAT /\ -180 <= 0 <= 180) /\
  exists px py,
    googleMapsLatLngToPoint 0 0 0 = Some (px, py) /\
    Rabs (inverse_lng px 0 - 0) <= 360 / worldSize 0 /\
    Rabs (inverse_lat py 0 - 0) <= 360 / worldSize 0 /\
    (0 = 0 -> (0 <= px <= 256)%Z /\ (0 <= py <= 256)%Z).
Proof.
  assert (H := MAX_LAT_pos).
  split; [lra|].
  apply (googleMapsLatLngToPoint_roundtrip 0 0 0); lra.
Defined.

Lemma cos_deg_pos (lat : R) : -90 < lat < 90 -> 0 < cos (lat * PI / 180).
Proof.
  intros H. assert (HP := PI_RGT_0). apply cos_gt_0.
  - apply (Rmult_lt_reg_r 180); [lra|].
    replace (lat * PI / 180 * 180) with (lat * PI) by (field; lra). nra.
  - apply (Rmult_lt_reg_r 180); [lra|].
    replace (lat * PI / 180 * 180) with (lat * PI) by (field; lra). nra.
Qed.

(** C6 (amended): for positive [metersVisible] and viewport height and a
    latitude strictly between -90 and 90, [convertMetersToZoom] is the
    non-negative part of [log2 (E * h * cos lat / (256 * m))], E = 40075017:
    the equator zoom [log2 ((E / 256) / (m / h))] minus [log2 (1 / cos lat)].
    The result is never negative; there is no upper clamp. *)
Theorem convertMetersToZoom_formula (m lat h : R) :
  0 < m -> 0 < h -> -90 < lat < 90 ->
  convertMetersToZoom m lat h
    = Rmax 0 (ln (40075017 * h * cos (lat * PI / 180) / (256 * m)) / ln 2) /\
  0 <= convertMetersToZoom m lat h.
Proof.
  intros Hm Hh Hlat.
  assert (Hc := cos_deg_pos lat Hlat).
  set (c := cos (lat * PI / 180)) in *.
  assert (Hl2 : 0 < ln 2) by (rewrite <- ln_1; apply ln_increasing; lra).
  assert (Heq : convertMetersToZoom m lat h
    = Rmax 0 (ln (40075017 * h * c / (256 * m)) / ln 2)).
  { unfold convertMetersToZoom, log2. fold c. f_equal.
    assert (Ha : 0 < 40075017 / 256 / (m / h)).
    { apply Rdiv_lt_0_compat; [lra|]. apply Rdiv_lt_0_compat; lra. }
    replace (40075017 * h * c / (256 * m))
      with (40075017 / 256 / (m / h) * c) by (field; lra).
    rewrite ln_mult by assumption.
    replace (1 / c) with (/ c) by (field; lra).
    rewrite ln_Rinv by assumption.
    field; lra. }
  split; [exact Heq|]. rewrite Heq. apply Rmax_l.
Qed.

(** The C6 counterexample: one meter over a 1000-pixel viewport at the
    equator gives a zoom above 22. *)
Lemma convertMetersToZoom_exceeds_22 : 22 < convertMetersToZoom 1 0 1000.
Proof.
  assert (Hl2 : 0 < ln 2) by (rewrite <- ln_1; apply ln_increasing; lra).
  unfold convertMetersToZoom, log2.
  replace (0 * PI / 180) with 0 by field. rewrite cos_0.
  replace (1 / 1) with 1 by field. rewrite ln_1.
  eapply Rlt_le_trans; [|apply Rmax_r].
  replace (ln (40075017 / 256 / (1 / 1000)) / ln 2 - 0 / ln 2)
    with (ln (40075017 / 256 / (1 / 1000)) / ln 2) by (field; lra).
  apply (Rmult_lt_reg_r (ln 2)); [lra|].
  replace (ln (40075017 / 256 / (1 / 1000)) / ln 2 * ln 2)
    with (ln (40075017 / 256 / (1 / 1000))) by (field; lra).
  replace (22 * ln 2) with (INR 22 * ln 2) by (simpl; ring).
  rewrite <- ln_pow by lra.
  apply ln_increasing; [apply pow_lt; lra|].
  simpl. lra.
Qed.

Lemma convertMetersToZoom_formula_witness :
  (0 < 1 /\ 0 < 1000 /\ -90 < 0 < 90) /\
  convertMetersToZoom 1 0 1000
    = Rmax 0 (ln (40075017 * 1000 * cos (0 * PI / 180) / (256 * 1)) / ln 2) /\
  0 <= convertMetersToZoom 1 0 1000.
Proof.
  split; [lra|]. apply (convertMetersToZoom_formula 1 0 1000); lra.
Defined.

End ProjectionFacts.

Module MapState2DFacts.
Import URLParser MapState2D.
Open Scope Z_scope.

Lemma neqQ_refl (q : Q) : neqQ q q = false.
Proof. unfold neqQ. rewrite Qeq_bool_refl. reflexivity. Qed.

Ltac case_ifs :=
  repeat (simpl; rewrite ?neqQ_refl, ?Z.eqb_refl; simpl;
          match goal with
          | |- context [if ?b then _ else _] => destruct b eqn:?
          | |- context [match ?x with _ => _ end] =>
              lazymatch x with
              | context [if _ then _ else _] => fail
              | _ => destruct x eqn:?
              end
          end).

(** The fields the refreshes leave alone. *)
Definition keeps (s s' : state) : Prop :=
  zoomInteractionTimeout s' = zoomInteractionTimeout s /\
  isPotentiallyZooming s' = isPotentiallyZooming s.

Lemma updatePositionFromUrl_keeps (w : world) (s : state) :
  keeps s (fst (updatePositionFromUrl w s)) /\
  ~ In ZoomResolved (snd (updatePositionFromUrl w s)).
Proof.
  destruct s; unfold updatePositionFromUrl, keeps; case_ifs;
    simpl; intuition discriminate.
Qed.

Lemma updateCanvasTransform_keeps (w : world) (s : state) :
  keeps s (fst (updateCanvasTransform w s)) /\
  ~ In ZoomResolved (snd (updateCanvasTransform w s)).
Proof.
  destruct s; unfold updateCanvasTransform, keeps; case_ifs;
    simpl; intuition discriminate.
Qed.

Lemma updateParentTransform_keeps (w : world) (s : state) :
  keeps s (fst (updateParentTransform w s)) /\
  ~ In ZoomResolved (snd (updateParentTransform w s)).
Proof.
  unfold updateParentTransform.
  destruct (isTransformDifferent _ _); [|simpl; unfold keeps; intuition].
  set (s0 := set_parent s _ _).
  assert (K0 : keeps s s0) by (unfold keeps; destruct s; split; reflexivity).
  destruct (negb (parentIsZero s) && _).
  - destruct (updatePositionFromUrl w s0) as [s1 c1] eqn:E.
    destruct (updatePositionFromUrl_keeps w s0) as [K1 N1]. rewrite E in K1, N1.
    simpl in *. unfold keeps in *. split; [intuition congruence|].
    rewrite in_app_iff. simpl. intuition discriminate.
  - simpl. unfold keeps in *. intuition discriminate.
Qed.

(** The three refreshes in sequence, as the timer callback and the URL
    handler run them. *)
Lemma refreshes_keep (w : world) (s : state) :
  let '(s1, c1) := updatePositionFromUrl w s in
  let '(s2, c2) := updateCanvasTransform w s1 in
  let '(s3, c3) := updateParentTransform w s2 in
  keeps s s3 /\ ~ In ZoomResolved (c1 ++ c2 ++ c3).
Proof.
  destruct (updatePositionFromUrl w s) as [s1 c1] eqn:E1.
  destruct (updatePositionFromUrl_keeps w s) as [K1 N1]. rewrite E1 in K1, N1.
  destruct (updateCanvasTransform w s1) as [s2 c2] eqn:E2.
  destruct (updateCanvasTransform_keeps w s1) as [K2 N2]. rewrite E2 in K2, N2.
  destruct (updateParentTransform w s2) as [s3 c3] eqn:E3.
  destruct (updateParentTransform_keeps w s2) as [K3 N3]. rewrite E3 in K3, N3.
  simpl in *. unfold keeps in *. split; [intuition congruence|].
  rewrite !in_app_iff. tauto.
Qed.

Lemma updatePositionFromUrl_parentIsZero (w : world) (s : state) :
  parentIsZero (fst (updatePositionFromUrl w s)) = parentIsZero s.
Proof. destruct s; unfold updatePositionFromUrl; case_ifs; reflexivity. Qed.

(** The timer callback: the timer is cleared, and the only [zoomResolved]
    of its notifications is its last one. *)
Lemma zoomTimeoutFired_spec (w : world) (s : state) :
  zoomInteractionTimeout (fst (zoomTimeoutFired w s)) = None /\
  isPotentiallyZooming (fst (zoomTimeoutFired w s)) = false /\
  exists cs, snd (zoomTimeoutFired w s) = cs ++ [ZoomResolved] /\
             ~ In ZoomResolved cs.
Proof.
  unfold zoomTimeoutFired.
  pose proof (refreshes_keep w (set_timer s false None)) as K.
  destruct (updatePositionFromUrl w _) as [s1 c1].
  destruct (updateCanvasTransform w s1) as [s2 c2].
  destruct (updateParentTransform w s2) as [s3 c3].
  destruct K as [[K1 K2] N]. simpl in *.
  split; [exact K1|]. split; [exact K2|].
  exists (c1 ++ c2 ++ c3). split; [rewrite <- !app_assoc; reflexivity|exact N].
Qed.

Definition isZoomResolved (e : Z * change) : bool :=
  match snd e with ZoomResolved => true | _ => false end.

Lemma filter_stamped (d : Z) (cs : list change) :
  ~ In ZoomResolved cs ->
  filter isZoomResolved (map (fun c => (d, c)) (cs ++ [ZoomResolved]))
    = [(d, ZoomResolved)].
Proof.
  induction cs as [|c cs IH]; intros N; [reflexivity|].
  simpl in N. simpl. destruct c; try (exfalso; tauto); apply IH; tauto.
Qed.

(** The events of a trace of qualifying inputs, each less than 1000 ms
    after the one before ([prev] is the time of the one before the first). *)
Fixpoint interactions_close (prev : Z) (tr : list (Z * world * input)) : Prop :=
  match tr with
  | [] => True
  | (t, _, i) :: rest => i = Interaction /\ t < prev + 1000 /\ interactions_close t rest
  end.

Fixpoint last_time (prev : Z) (tr : list (Z * world * input)) : Z :=
  match tr with
  | [] => prev
  | (t, _, _) :: rest => last_time t rest
  end.

Lemma run_interactions (tr : list (Z * world * input)) :
  forall w s prev,
  zoomInteractionTimeout s = Some (prev + 1000) ->
  interactions_close prev tr ->
  filter isZoomResolved (snd (run w s tr)) = [(last_time prev tr + 1000, ZoomResolved)] /\
  Forall (fun e => fst e = last_time prev tr + 1000) (snd (run w s tr)) /\
  zoomInteractionTimeout (fst (run w s tr)) = None.
Proof.
  induction tr as [|[[t w'] i] rest IH]; intros w s prev Ht Hc.
  - simpl. rewrite Ht.
    destruct (zoomTimeoutFired_spec w s) as [T [_ [cs [E N]]]].
    destruct (zoomTimeoutFired w s) as [s' l] eqn:Ez. simpl in *. subst l.
    split; [apply filter_stamped; exact N|].
    split; [|exact T].
    apply Forall_forall. intros x Hx. apply in_map_iff in Hx.
    destruct Hx as [c [<- _]]. reflexivity.
  - destruct Hc as [-> [Hlt Hc]]. simpl.
    unfold fire_due. rewrite Ht.
    replace (prev + 1000 <=? t) with false by lia.
    specialize (IH w' (handlePotentialZoomInteraction t s) t eq_refl Hc).
    destruct (run w' (handlePotentialZoomInteraction t s) rest) as [s3 l3].
    simpl in *. exact IH.
Qed.

Lemma handleUrlChanged_pending (w : world) (s : state) (d : Z) :
  parentIsZero s = true -> zoomInteractionTimeout s = Some d ->
  zoomInteractionTimeout (fst (handleUrlChanged w s)) = None /\
  isPotentiallyZooming (fst (handleUrlChanged w s)) = false /\
  exists cs, snd (handleUrlChanged w s) = cs ++ [ZoomResolved].
Proof.
  intros Hz Ht. unfold handleUrlChanged. rewrite Hz.
  destruct (updatePositionFromUrl_keeps w s) as [[K1 _] _].
  destruct (updatePositionFromUrl w s) as [s1 c1]. simpl in K1. rewrite K1, Ht.
  set (s0 := set_timer s1 false None) in *.
  destruct (updateCanvasTransform w s0) as [s2 c2] eqn:E2.
  destruct (updateCanvasTransform_keeps w s0) as [[A1 A2] _]. rewrite E2 in A1, A2.
  destruct (updateParentTransform w s2) as [s3 c3] eqn:E3.
  destruct (updateParentTransform_keeps w s2) as [[B1 B2] _]. rewrite E3 in B1, B2.
  simpl in *. split; [congruence|]. split; [congruence|].
  exists (c1 ++ c2 ++ c3). rewrite <- !app_assoc. reflexivity.
Qed.

(** C4 (amended): with a center set, [mapLatLngToCanvas] returns half the
    parent container's dimensions, plus the world-pixel offset of the point
    from the center (both projected at the integer zoom into a 256-pixel
    world tile), minus the tracked canvas translation, unscaled; there is no
    device-pixel-ratio factor and no tile-alignment term.  With no center it
    returns [null]. *)
Theorem mapLatLngToCanvas_formula (w : world) (s : state) (lat lng : R) :
  mapLatLngToCanvas w s lat lng =
  match center s with
  | None => None
  | Some (clat, clng) =>
    let z := IZR (zoom s) in
    let '(cx, cy) := (Projection.Math_floor (((Q2R clng + 180) / 360) * Projection.worldSize z),
                      Projection.Math_floor ((1 / 2 - ln (tan (PI / 4 + Q2R clat * PI / 180 / 2))
                                              / (2 * PI)) * Projection.worldSize z)) in
    let '(px, py) := (Projection.Math_floor (((lng + 180) / 360) * Projection.worldSize z),
                      Projection.Math_floor ((1 / 2 - ln (tan (PI / 4 + lat * PI / 180 / 2))
                                              / (2 * PI)) * Projection.worldSize z)) in
    Some ((IZR (fst (parentDims w)) / 2 + IZR (px - cx) - Q2R (translateX (canvasTransform s)))%R,
          (IZR (snd (parentDims w)) / 2 + IZR (py - cy) - Q2R (translateY (canvasTransform s)))%R)
  end.
Proof. unfold mapLatLngToCanvas. destruct (center s) as [[clat clng]|]; reflexivity. Qed.

Definition w_c4 : world := mkWorld "" (1000, 800) None None.
Definition s_c4 : state := set_center initState (Some (0%Q, 0%Q)).
Definition cv_c4 : Legacy.canvasView :=
  Legacy.mkCanvasView 256 1 (1000, 800) (1000, 800) (0%R, 0%R).

(** The C4 counterexample: parent 1000 x 800, zero translation, the label at
    the center.  [mapLatLngToCanvas] gives the parent's center (500, 400);
    the formula with the tile-alignment term (the raster script's
    [latLngToCanvasPixel], 256-pixel tiles) gives (348, 176). *)
Lemma mapLatLngToCanvas_no_tile_alignment :
  mapLatLngToCanvas w_c4 s_c4 0 0 = Some (500%R, 400%R) /\
  Legacy.latLngToCanvasPixel cv_c4 (Legacy.mkState (Some (0%Q, 0%Q)) (Some 0)) 0 0
    = Some (348%R, 176%R).
Proof.
  assert (Q0 : Q2R 0 = 0%R) by (unfold Q2R; simpl; field).
  split.
  - unfold mapLatLngToCanvas, Projection.calculatePixelOffset, s_c4, w_c4.
    cbv beta iota delta [center zoom s_c4 set_center initState]. rewrite Q0.
    destruct (Projection.googleMapsLatLngToPoint 0 0 (IZR 0)) as [[x y]|] eqn:E.
    2:{ discriminate E. }
    rewrite !Z.sub_diag. simpl. rewrite ?Q0. f_equal. f_equal; lra.
  - unfold Legacy.latLngToCanvasPixel, cv_c4.
    cbv beta iota delta [Legacy.lastCenter Legacy.lastZoom Legacy.tileSize]. rewrite Q0.
    destruct (Legacy.labelLatLngToPoint _ 0 0 _) as [[x y]|] eqn:E.
    2:{ discriminate E. }
    rewrite !Z.sub_diag. simpl. f_equal. f_equal; lra.
Qed.










(** C8 (amended): a run of qualifying inputs, each less than 1000 ms after
    the one before and none after a pending deadline, ends with exactly one
    [zoomResolved] notification, stamped 1000 ms after the last input; every
    notification of the run comes at that moment, and no timer is left.
    Each qualifying input restarts the timer for 1000 ms after it.  A
    [wokemaps_urlChanged] event that finds a pending timer clears it and
    resolves at once when the parent transform is at rest
    ([parentIsZero]); when it is not, the event changes nothing. *)
Theorem zoom_debounce (w : world) (s : state) (t0 : Z) (w0 : world)
  (tr : list (Z * world * input)) :
  match zoomInteractionTimeout s with Some d => t0 < d | None => True end ->
  interactions_close t0 tr ->
  (filter isZoomResolved (snd (run w s ((t0, w0, Interaction) :: tr)))
     = [(last_time t0 tr + 1000, ZoomResolved)] /\
   Forall (fun e => fst e = last_time t0 tr + 1000)
     (snd (run w s ((t0, w0, Interaction) :: tr))) /\
   zoomInteractionTimeout (fst (run w s ((t0, w0, Interaction) :: tr))) = None) /\
  (forall now w' s',
     zoomInteractionTimeout (fst (handle now w' Interaction s')) = Some (now + 1000) /\
     snd (handle now w' Interaction s') = []) /\
  (forall now w' s' d,
     parentIsZero s' = true -> zoomInteractionTimeout s' = Some d ->
     zoomInteractionTimeout (fst (handle now w' UrlChanged s')) = None /\
     isPotentiallyZooming (fst (handle now w' UrlChanged s')) = false /\
     exists cs, snd (handle now w' UrlChanged s') = cs ++ [(now, ZoomResolved)]) /\
  (forall now w' s',
     parentIsZero s' = false -> handle now w' UrlChanged s' = (s', [])).
Proof.
  intros Hd Hc. split; [|split; [|split]].
  - simpl. unfold fire_due.
    destruct (zoomInteractionTimeout s) as [d|] eqn:Ht.
    + replace (d <=? t0) with false by lia.
      destruct (run_interactions tr w0 (handlePotentialZoomInteraction t0 s) t0
                  eq_refl Hc) as [A [B C]].
      destruct (run w0 (handlePotentialZoomInteraction t0 s) tr). simpl in *. auto.
    + destruct (run_interactions tr w0 (handlePotentialZoomInteraction t0 s) t0
                  eq_refl Hc) as [A [B C]].
      destruct (run w0 (handlePotentialZoomInteraction t0 s) tr). simpl in *. auto.
  - intros now w' s'. split; reflexivity.
  - intros now w' s' d Hz Ht.
    destruct (handleUrlChanged_pending w' s' d Hz Ht) as [A [B [cs C]]].
    unfold handle. destruct (handleUrlChanged w' s') as [s1 c1]. simpl in *.
    split; [exact A|]. split; [exact B|].
    exists (map (fun c => (now, c)) cs). rewrite C, map_app. reflexivity.
  - intros now w' s' Hz. unfold handle, handleUrlChanged. rewrite Hz. reflexivity.
Qed.

Definition w_c8 : world := mkWorld "" (1000, 800) None None.

Lemma zoom_debounce_witness :
  ((match zoomInteractionTimeout initState with Some d => 0 < d | None => True end) /\
   interactions_close 0 [(500, w_c8, Interaction)]) /\
  (filter isZoomResolved (snd (run w_c8 initState ((0, w_c8, Interaction) :: [(500, w_c8, Interaction)])))
     = [(last_time 0 [(500, w_c8, Interaction)] + 1000, ZoomResolved)] /\
   Forall (fun e => fst e = last_time 0 [(500, w_c8, Interaction)] + 1000)
     (snd (run w_c8 initState ((0, w_c8, Interaction) :: [(500, w_c8, Interaction)]))) /\
   zoomInteractionTimeout
     (fst (run w_c8 initState ((0, w_c8, Interaction) :: [(500, w_c8, Interaction)]))) = None) /\
  (forall now w' s',
     zoomInteractionTimeout (fst (handle now w' Interaction s')) = Some (now + 1000) /\
     snd (handle now w' Interaction s') = []) /\
  (forall now w' s' d,
     parentIsZero s' = true -> zoomInteractionTimeout s' = Some d ->
     zoomInteractionTimeout (fst (handle now w' UrlChanged s')) = None /\
     isPotentiallyZooming (fst (handle now w' UrlChanged s')) = false /\
     exists cs, snd (handle now w' UrlChanged s') = cs ++ [(now, ZoomResolved)]) /\
  (forall now w' s',
     parentIsZero s' = false -> handle now w' UrlChanged s' = (s', [])).
Proof.
  split.
  - split; [exact I|]. simpl. repeat split; lia.
  - apply (zoom_debounce w_c8 initState 0 w_c8 [(500, w_c8, Interaction)]).
    + exact I.
    + simpl. repeat split; lia.
Defined.

(** A zoom gesture in progress while the parent is translated (a pan not
    yet settled): the timer is due at 1000. *)
Definition s_c8 : state :=
  mkState None 0 (Some "map"%string) identity (mkTransform 5 0 1) false true (Some 1000).

(** The C8 counterexample: a [wokemaps_urlChanged] event at 500 does not
    resolve the pending interaction; the [zoomResolved] notification still
    comes from the timer at 1000. *)
Lemma url_change_ignored_while_parent_moved :
  handle 500 w_c8 UrlChanged s_c8 = (s_c8, []) /\
  snd (run w_c8 s_c8 [(500, w_c8, UrlChanged)])
    = [(1000, ParentTransformChange); (1000, ZoomResolved)].
Proof. split; vm_compute; reflexivity. Qed.

(** C9: when the URL yields no parse, the refresh leaves every tracked
    field (center and zoom included) as it was and notifies no listener. *)
Theorem updatePositionFromUrl_no_parse (w : world) (s : state) :
  extractMapParameters (url w) = None -> updatePositionFromUrl w s = (s, []).
Proof.
  intros H. unfold updatePositionFromUrl. rewrite H.
  destruct (negb (parentIsZero s)); reflexivity.
Qed.

Definition w_c9 : world := mkWorld "https://www.google.com/maps/place/Paris" (1000, 800) None None.

Lemma updatePositionFromUrl_no_parse_witness :
  extractMapParameters (url w_c9) = None /\
  updatePositionFromUrl w_c9 s_c4 = (s_c4, []).
Proof.
  split; [vm_compute; reflexivity|].
  apply (updatePositionFromUrl_no_parse w_c9 s_c4). vm_compute. reflexivity.
Defined.

End MapState2DFacts.

Module OverlayEngineFacts.
Import OverlayEngine.

Lemma Qle_bool_false (a b : Q) : Qle_bool a b = false <-> (b < a)%Q.
Proof.
  rewrite <- not_true_iff_false, Qle_bool_iff.
  split; [apply Qnot_le_lt | apply Qlt_not_le].
Qed.

Definition label_4_16 : label unit := mkLabel unit (4%Q, 16%Q) tt.

(** C5: [redrawAllLabels] draws a label exactly when the overlay is ready,
    no zoom interaction is pending, the label is drawn by
    [renderLabelToOverlay], and the zoom [z] satisfies
    [minZoom <= z < maxZoom]; a label with limits [[4, 16)] is drawn at 4
    and at 15.999, not at 16. *)
Theorem redrawAllLabels_half_open {A : Type} (render : label A -> bool)
  (ready zooming : bool) (z : Q) (allLabels : list (label A)) (l : label A) :
  (In l (redrawAllLabels render ready zooming z allLabels) <->
   ready = true /\ zooming = false /\ In l allLabels /\
   (fst (zoomLimits l) <= z /\ z < snd (zoomLimits l))%Q /\ render l = true) /\
  redrawAllLabels (fun _ => true) true false 4 [label_4_16] = [label_4_16] /\
  redrawAllLabels (fun _ => true) true false (15999 # 1000) [label_4_16] = [label_4_16] /\
  redrawAllLabels (fun _ => true) true false 16 [label_4_16] = [].
Proof.
  split; [|vm_compute; repeat split; reflexivity].
  unfold redrawAllLabels.
  destruct ready, zooming; simpl;
    try (split; [intros [] | intros [H1 [H2 _]]; discriminate]).
  rewrite filter_In, !andb_true_iff, Qle_bool_iff, negb_true_iff, Qle_bool_false.
  split.
  - intros [Hin [[H1 H2] H3]]. repeat split; auto.
  - intros [_ [_ [Hin [[H1 H2] H3]]]]. repeat split; auto.
Qed.

End OverlayEngineFacts.

Module URLParserFacts.
Import URLParser.

(** C10 (amended): [extractMapParameters] returns the zoom result of the
    leftmost ['@lat,lng,<n>z'] match whenever its three numbers parse;
    otherwise the meters result of the leftmost ['@lat,lng,<n>m'] match when
    its numbers parse; otherwise [null].  A meters result thus comes exactly
    from a URL whose leftmost zoom-format match is absent or has a
    non-numeric coordinate, later zoom-format matches being ignored. *)
Theorem extractMapParameters_precedence (u : string) :
  (forall g lat lng zoom,
     first_match "z"%char (chars u) = Some g -> parse3 g = Some (lat, lng, zoom) ->
     extractMapParameters u = Some (ZoomParams lat lng zoom)) /\
  (forall g lat lng m,
     (forall gz, first_match "z"%char (chars u) = Some gz -> parse3 gz = None) ->
     first_match "m"%char (chars u) = Some g -> parse3 g = Some (lat, lng, m) ->
     extractMapParameters u = Some (MetersParams lat lng m)) /\
  (forall lat lng m,
     extractMapParameters u = Some (MetersParams lat lng m) ->
     (forall gz, first_match "z"%char (chars u) = Some gz -> parse3 gz = None) /\
     exists g, first_match "m"%char (chars u) = Some g /\ parse3 g = Some (lat, lng, m)) /\
  (extractMapParameters u = None <->
     (forall gz, first_match "z"%char (chars u) = Some gz -> parse3 gz = None) /\
     (forall gm, first_match "m"%char (chars u) = Some gm -> parse3 gm = None)).
Proof.
  unfold extractMapParameters.
  destruct (first_match "z"%char (chars u)) as [gz|] eqn:Ez;
  [destruct (parse3 gz) as [[[a b] c]|] eqn:Pz|];
  destruct (first_match "m"%char (chars u)) as [gm|] eqn:Em;
  try destruct (parse3 gm) as [[[a' b'] c']|] eqn:Pm;
  repeat split; intros;
  repeat match goal with
         | H : Some _ = Some _ |- _ => injection H as; subst
         | H : _ /\ _ |- _ => destruct H
         | H : forall gz, Some ?g = Some gz -> _ |- _ =>
             specialize (H g eq_refl)
         | |- forall gz, Some _ = Some gz -> _ =>
             let g := fresh in let E := fresh in intros g E; injection E as <-
         | |- forall gz, None = Some gz -> _ =>
             let g := fresh in let E := fresh in intros g E; discriminate E
         end;
  try assumption; try congruence;
  try (eexists; split; [reflexivity | congruence]).
Qed.

(** The C10 counterexample: both patterns match, yet the leftmost
    zoom-format match has the latitude ['.'] (NaN), so the meters result is
    returned, although a later zoom-format match ['@3,4,5z'] is numeric. *)
Lemma extractMapParameters_meters_over_zoom :
  first_match "z"%char (chars "@.,1,2z@3,4,5z@6,7,8m") <> None /\
  first_match "m"%char (chars "@.,1,2z@3,4,5z@6,7,8m") <> None /\
  first_match "z"%char (chars "@3,4,5z@6,7,8m") = Some (["3"%char], ["4"%char], ["5"%char]) /\
  extractMapParameters "@.,1,2z@3,4,5z@6,7,8m" = Some (MetersParams 6 7 8).
Proof. vm_compute. repeat split; try discriminate; reflexivity. Qed.

End URLParserFacts.

(* ================================================================== *)
(** * Further properties of the modelled code *)

From Stdlib Require Import Permutation Sorted.

Module TileTrackerExtra.
Import TileTracker.
Open Scope Z_scope.

(** X1: swapping the two anchors negates both components of the frame
    movement and keeps the [wrapped] flag. *)
Lemma calculateFrameMovement_swap (a b : anchor) :
  calculateFrameMovement (Some b) (Some a) =
  match calculateFrameMovement (Some a) (Some b) with
  | Some m => Some (mkMovement (- mx m) (- my m) (wrapped m))
  | None => None
  end.
Proof.
  unfold calculateFrameMovement. simpl.
  replace (ax a - ax b) with (- (ax b - ax a)) by ring.
  replace (ay a - ay b) with (- (ay b - ay a)) by ring.
  set (dx := ax b - ax a). set (dy := ay b - ay a).
  rewrite !Z.abs_opp. f_equal. f_equal.
  - destruct (256 <? Z.abs dx) eqn:E; [|ring].
    apply Z.ltb_lt in E.
    destruct (0 <? - dx) eqn:E1; destruct (0 <? dx) eqn:E2;
      rewrite ?Z.ltb_lt, ?Z.ltb_ge in E1, E2; lia.
  - destruct (256 <? Z.abs dy) eqn:E; [|ring].
    apply Z.ltb_lt in E.
    destruct (0 <? - dy) eqn:E1; destruct (0 <? dy) eqn:E2;
      rewrite ?Z.ltb_lt, ?Z.ltb_ge in E1, E2; lia.
Qed.

Lemma unwrap_axis (d : Z) :
  let a := if 256 <? Z.abs d then (if 0 <? d then d - 512 else d + 512) else d in
  (exists k, -1 <= k <= 1 /\ a = d + 512 * k) /\
  (Z.abs d < 768 -> Z.abs a <= 256) /\
  ((256 <? Z.abs d) = negb (a =? d)).
Proof.
  simpl. destruct (256 <? Z.abs d) eqn:E.
  - apply Z.ltb_lt in E. destruct (0 <? d) eqn:E1.
    + apply Z.ltb_lt in E1. split; [exists (-1); lia|].
      split; [lia|]. symmetry. apply negb_true_iff, Z.eqb_neq. lia.
    + apply Z.ltb_ge in E1. split; [exists 1; lia|].
      split; [lia|]. symmetry. apply negb_true_iff, Z.eqb_neq. lia.
  - apply Z.ltb_ge in E. split; [exists 0; lia|]. split; [lia|].
    rewrite Z.eqb_refl. reflexivity.
Qed.

(** X2: each component of the frame movement differs from the raw anchor
    delta by a multiple of 512 among -512, 0 and 512; a raw delta below
    768 in magnitude comes out within [[-256, 256]]; and [wrapped] is set
    exactly when a component was changed. *)
Lemma calculateFrameMovement_range (a b : anchor) :
  exists m, calculateFrameMovement (Some a) (Some b) = Some m /\
  (exists k, -1 <= k <= 1 /\ mx m = ax b - ax a + 512 * k) /\
  (exists k, -1 <= k <= 1 /\ my m = ay b - ay a + 512 * k) /\
  (Z.abs (ax b - ax a) < 768 -> Z.abs (mx m) <= 256) /\
  (Z.abs (ay b - ay a) < 768 -> Z.abs (my m) <= 256) /\
  wrapped m = negb (mx m =? ax b - ax a) || negb (my m =? ay b - ay a).
Proof.
  eexists. split; [reflexivity|]. simpl.
  destruct (unwrap_axis (ax b - ax a)) as [X1 [X2 X3]].
  destruct (unwrap_axis (ay b - ay a)) as [Y1 [Y2 Y3]].
  simpl in *. rewrite <- X3, <- Y3. tauto.
Qed.

(** The visibility filter of [findAnchorTile]. *)
Definition is_visible (t : tile) : bool :=
  (0 <? width t) && (0 <? height t) && (width t <=? TILE_SIZE) && (height t <=? TILE_SIZE).

Lemma insert_by_perm (key : tile -> Z) (t : tile) (l : list tile) :
  Permutation (insert_by key t l) (t :: l).
Proof.
  induction l as [|h r IH]; simpl; [constructor; constructor|].
  destruct (key h <=? key t).
  - eapply perm_trans; [apply perm_skip, IH|]. apply perm_swap.
  - apply Permutation_refl.
Qed.

Lemma stable_sort_perm (key : tile -> Z) (l : list tile) :
  Permutation (stable_sort key l) l.
Proof.
  unfold stable_sort.
  assert (G : forall acc, Permutation (fold_left (fun acc t => insert_by key t acc) l acc)
                                      (acc ++ l)).
  { induction l as [|t r IH]; intros acc; simpl; [rewrite app_nil_r; apply Permutation_refl|].
    eapply perm_trans; [apply IH|].
    eapply perm_trans; [apply Permutation_app_tail, insert_by_perm|].
    simpl. apply Permutation_middle. }
  apply G.
Qed.

Lemma insert_by_sorted (key : tile -> Z) (t : tile) (l : list tile) :
  Sorted (fun a b => key a <= key b) l ->
  Sorted (fun a b => key a <= key b) (insert_by key t l).
Proof.
  induction 1 as [|h r Hs IH Hh]; simpl; [repeat constructor|].
  destruct (key h <=? key t) eqn:E.
  - apply Z.leb_le in E. constructor; [exact IH|].
    destruct r as [|h' r']; simpl; [constructor; exact E|].
    inversion Hh; subst.
    destruct (key h' <=? key t); constructor; assumption.
  - apply Z.leb_gt in E. constructor; [constructor; assumption|]. constructor. lia.
Qed.

Lemma stable_sort_sorted (key : tile -> Z) (l : list tile) :
  Sorted (fun a b => key a <= key b) (stable_sort key l).
Proof.
  unfold stable_sort.
  assert (G : forall acc, Sorted (fun a b => key a <= key b) acc ->
    Sorted (fun a b => key a <= key b) (fold_left (fun acc t => insert_by key t acc) l acc)).
  { induction l as [|t r IH]; intros acc H; simpl; [exact H|].
    apply IH, insert_by_sorted, H. }
  apply G. constructor.
Qed.

Lemma virtual_loop_vt (tiles sorted : list tile) :
  map vt (virtual_loop tiles sorted) = sorted.
Proof. induction sorted; simpl; congruence. Qed.

(** X3: [calculateVirtualTilePosition] returns one entry per input tile,
    the tiles in ascending [x] order (a permutation of the input), and a
    tile of full width (height) keeps its [x] ([y]) as virtual position. *)
Lemma calculateVirtualTilePosition_spec (ts : list tile) :
  Permutation (map vt (calculateVirtualTilePosition ts)) ts /\
  Sorted (fun a b => x a <= x b) (map vt (calculateVirtualTilePosition ts)) /\
  (forall v, In v (calculateVirtualTilePosition ts) ->
     (width (vt v) = TILE_SIZE -> virtualX v = x (vt v)) /\
     (height (vt v) = TILE_SIZE -> virtualY v = y (vt v))).
Proof.
  unfold calculateVirtualTilePosition. rewrite virtual_loop_vt.
  split; [apply stable_sort_perm|]. split; [apply stable_sort_sorted|].
  generalize (stable_sort x ts). intros l.
  induction l as [|t r IH]; simpl; [tauto|].
  intros v [<- | Hv]; [|apply IH, Hv].
  simpl. unfold virtual_x, virtual_y. split; intros E; rewrite E, Z.eqb_refl; reflexivity.
Qed.

Lemma fold_min (f : vtile -> Z) (l : list vtile) (a0 : vtile) :
  let r := fold_left (fun a v => if f v <? f a then v else a) l a0 in
  (r = a0 \/ In r l) /\ f r <= f a0 /\ forall v, In v l -> f r <= f v.
Proof.
  revert a0. induction l as [|h t IH]; intros a0; simpl.
  - split; [left; reflexivity|]. split; [lia|]. tauto.
  - destruct (f h <? f a0) eqn:E.
    + apply Z.ltb_lt in E. destruct (IH h) as [R1 [R2 R3]].
      split; [destruct R1; [right; left; congruence| right; right; assumption]|].
      split; [lia|]. intros v [<- | Hv]; [lia | apply R3, Hv].
    + apply Z.ltb_ge in E. destruct (IH a0) as [R1 [R2 R3]].
      split; [destruct R1; [left; assumption| right; right; assumption]|].
      split; [lia|]. intros v [<- | Hv]; [lia | apply R3, Hv].
Qed.

(** X4: [findAnchorTile] finds no anchor exactly when no tile of the frame is
    visible (positive width and height, both at most [TILE_SIZE]); otherwise
    the anchor is the virtual position of a visible tile of the frame, and
    no visible tile has a smaller sum [virtualX + virtualY]. *)
Lemma findAnchorTile_spec (ts : list tile) :
  (findAnchorTile ts = None <-> forall t, In t ts -> is_visible t = false) /\
  (forall a, findAnchorTile ts = Some a ->
     exists v, In v (calculateVirtualTilePosition (filter is_visible ts)) /\
     a = mkAnchor (virtualX v) (virtualY v) (vt v) /\
     In (vt v) ts /\ is_visible (vt v) = true /\
     forall v', In v' (calculateVirtualTilePosition (filter is_visible ts)) ->
       ax a + ay a <= virtualX v' + virtualY v').
Proof.
  assert (Hin : forall v, In v (calculateVirtualTilePosition (filter is_visible ts)) ->
                In (vt v) (filter is_visible ts)).
  { intros v Hv. apply (Permutation_in _ (proj1 (calculateVirtualTilePosition_spec _))).
    apply in_map, Hv. }
  assert (Hlen : List.length (calculateVirtualTilePosition (filter is_visible ts))
                 = List.length (filter is_visible ts)).
  { rewrite <- (length_map vt).
    apply Permutation_length, calculateVirtualTilePosition_spec. }
  unfold findAnchorTile. fold is_visible.
  destruct ts as [|t0 ts'] eqn:Ets.
  { split; [split; [intros _ t []|reflexivity]|discriminate]. }
  rewrite <- Ets in *.
  destruct (filter is_visible ts) as [|f0 fs] eqn:Ef.
  - split; [|discriminate]. split; [|reflexivity]. intros _ t Ht.
    destruct (is_visible t) eqn:Ev; [|reflexivity].
    assert (In t (filter is_visible ts)) by (apply filter_In; auto).
    rewrite Ef in H. destruct H.
  - destruct (calculateVirtualTilePosition (f0 :: fs)) as [|v0 vs] eqn:Ev.
    { simpl in Hlen. discriminate. }
    split.
    + split; [discriminate|]. intros H.
      assert (In f0 (filter is_visible ts)) by (rewrite Ef; left; reflexivity).
      apply filter_In in H0. destruct H0 as [H1 H2]. rewrite (H f0 H1) in H2. discriminate.
    + intros a Ha. injection Ha as <-.
      destruct (fold_min (fun v => virtualX v + virtualY v) (v0 :: vs) v0)
        as [R1 [R2 R3]].
      set (r := fold_left _ _ _) in *.
      assert (Er : fold_left (fun a v => if virtualX v + virtualY v <? virtualX a + virtualY a
                                         then v else a) vs v0 = r)
        by (unfold r; simpl; rewrite Z.ltb_irrefl; reflexivity).
      rewrite Er. exists r.
      assert (Hr : In r (v0 :: vs)) by (destruct R1; [left; congruence|assumption]).
      split; [exact Hr|].
      split; [reflexivity|].
      assert (Hf : In (vt r) (filter is_visible ts)) by (rewrite Ef; apply Hin; exact Hr).
      apply filter_In in Hf. destruct Hf as [Hf1 Hf2].
      split; [exact Hf1|]. split; [exact Hf2|].
      intros v' Hv'. apply R3. exact Hv'.
Qed.

(** X5: [processFrame] changes nothing and posts nothing when no tile of
    the frame is visible (in particular for an empty frame). *)
Lemma processFrame_no_visible (st : tracker) :
  (forall t, In t (tiles (currentFrame st)) -> is_visible t = false) ->
  processFrame st = (st, []).
Proof.
  intros H. unfold processFrame.
  destruct (proj1 (findAnchorTile_spec (tiles (currentFrame st)))) as [_ E].
  rewrite (E H). destruct (tiles (currentFrame st)); reflexivity.
Qed.

Definition st_hidden : tracker :=
  mkTracker None None (0, 0) None (mkFrame [mkTile 0 0 0 512] None).

Lemma processFrame_no_visible_witness :
  (forall t, In t (tiles (currentFrame st_hidden)) -> is_visible t = false) /\
  processFrame st_hidden = (st_hidden, []).
Proof.
  assert (H : forall t, In t (tiles (currentFrame st_hidden)) -> is_visible t = false)
    by (intros t [<-|[]]; reflexivity).
  split; [exact H | apply (processFrame_no_visible st_hidden H)].
Defined.


(** X6: every [WOKEMAPS_TILE_MOVEMENT] message a step posts carries the
    tracker's accumulated movement after the step, and a step that posts
    [WOKEMAPS_BASELINE_RESET] leaves the accumulated movement at (0, 0). *)
Lemma step_messages (st : tracker) (e : event) :
  (forall mvx mvy, In (TileMovementMsg mvx mvy) (snd (step st e)) ->
     totalMovement (fst (step st e)) = (mvx, mvy)) /\
  (In BaselineReset (snd (step st e)) -> totalMovement (fst (step st e)) = (0, 0)).
Proof.
  destruct e as [t| |p|]; simpl.
  - destruct (_ && _); simpl; split; intros; contradiction.
  - unfold processFrame.
    destruct (tiles (currentFrame st)) as [|t0 ts]; [simpl; split; intros; contradiction|].
    destruct (findAnchorTile _) as [a|]; [|simpl; split; intros; contradiction].
    simpl. destruct (urlBaseline st).
    + destruct (calculateFrameMovement (frameBaseline st) (Some a)) as [m|];
        [|simpl; split; intros; contradiction].
      destruct (negb (mx m =? 0) || negb (my m =? 0)); simpl;
        split; intros; try contradiction.
      * destruct H as [H|[]]. injection H as <- <-. reflexivity.
      * destruct H as [H|[]]. discriminate.
    + simpl. split; [intros mvx mvy [H|[]]; discriminate|reflexivity].
  - unfold resetBaselines. destruct (frameBaseline st); simpl;
      (split; [intros mvx mvy [H|[]]; discriminate|reflexivity]).
  - unfold resetBaselines. simpl;
      (split; [intros mvx mvy [H|[]]; discriminate|reflexivity]).
Qed.

(** X7: after a drawer reset, the next frame end with an anchor makes that
    anchor the new URL and frame baseline, with zero movement, and posts a
    baseline reset. *)
Lemma drawer_then_frame_rebaselines (st : tracker) (a : anchor) :
  findAnchorTile (tiles (currentFrame st)) = Some a ->
  let st1 := fst (step st DrawerToggle) in
  urlBaseline (fst (step st1 FrameEnd)) = Some a /\
  frameBaseline (fst (step st1 FrameEnd)) = Some a /\
  totalMovement (fst (step st1 FrameEnd)) = (0, 0) /\
  snd (step st1 FrameEnd) = [BaselineReset].
Proof.
  intros H. unfold step, resetBaselines, processFrame.
  cbn [fst snd frameBaseline currentFrame urlBaseline mapPos].
  rewrite H.
  destruct (tiles (currentFrame st)) as [|t0 ts] eqn:Et; [discriminate|].
  repeat split.
Qed.

Definition st_shown : tracker :=
  mkTracker None None (7, -3) None (mkFrame [mkTile 100 40 512 512; mkTile 612 40 512 512] None).

Lemma drawer_then_frame_rebaselines_witness :
  findAnchorTile (tiles (currentFrame st_shown)) = Some (mkAnchor 100 40 (mkTile 100 40 512 512)) /\
  let st1 := fst (step st_shown DrawerToggle) in
  urlBaseline (fst (step st1 FrameEnd)) = Some (mkAnchor 100 40 (mkTile 100 40 512 512)) /\
  frameBaseline (fst (step st1 FrameEnd)) = Some (mkAnchor 100 40 (mkTile 100 40 512 512)) /\
  totalMovement (fst (step st1 FrameEnd)) = (0, 0) /\
  snd (step st1 FrameEnd) = [BaselineReset].
Proof.
  assert (H : findAnchorTile (tiles (currentFrame st_shown))
              = Some (mkAnchor 100 40 (mkTile 100 40 512 512))) by (vm_compute; reflexivity).
  split; [exact H | apply (drawer_then_frame_rebaselines st_shown _ H)].
Defined.


End TileTrackerExtra.

Module ProjectionExtra.
Import Projection.
Open Scope R_scope.

Lemma Math_floor_mono (r r' : R) : r <= r' -> (Math_floor r <= Math_floor r')%Z.
Proof.
  intros H. destruct (ProjectionFacts.Math_floor_spec r) as [A1 A2].
  destruct (ProjectionFacts.Math_floor_spec r') as [B1 B2].
  assert (Hlt : IZR (Math_floor r) < IZR (Math_floor r' + 1)) by (rewrite plus_IZR; lra).
  apply lt_IZR in Hlt. lia.
Qed.

(** X8: the projection is monotone: moving east never decreases the pixel
    [x], moving north (for latitudes strictly between -90 and 90) never
    increases the pixel [y]. *)
Lemma googleMapsLatLngToPoint_monotone (lat lat' lng lng' zoom : R) :
  -90 < lat -> lat <= lat' -> lat' < 90 -> lng <= lng' ->
  match googleMapsLatLngToPoint lat lng zoom, googleMapsLatLngToPoint lat' lng' zoom with
  | Some (px, py), Some (px', py') => (px <= px')%Z /\ (py' <= py)%Z
  | _, _ => False
  end.
Proof.
  intros H1 H2 H3 H4.
  assert (HP := PI_RGT_0). assert (HW := ProjectionFacts.worldSize_pos zoom).
  unfold googleMapsLatLngToPoint. cbv zeta. split.
  - apply Math_floor_mono. apply Rmult_le_compat_r; [lra|].
    unfold Rdiv. apply Rmult_le_compat_r; [lra|]. lra.
  - apply Math_floor_mono. apply Rmult_le_compat_r; [lra|].
    set (u := PI / 4 + lat * PI / 180 / 2). set (u' := PI / 4 + lat' * PI / 180 / 2).
    assert (Hu : 0 < u) by (unfold u; nra).
    assert (Huu : u <= u') by (unfold u, u'; nra).
    assert (Hu' : u' < PI / 2) by (unfold u'; nra).
    assert (Ht : 0 < tan u) by (apply tan_gt_0; lra).
    assert (Htt : tan u <= tan u').
    { destruct (Rle_lt_or_eq_dec _ _ Huu) as [Hlt|Heq];
        [left; apply tan_increasing; lra | right; rewrite Heq; reflexivity]. }
    assert (Hl : ln (tan u) <= ln (tan u')) by (apply ProjectionFacts.ln_le_compat; lra).
    assert (Hd : ln (tan u) / (2 * PI) <= ln (tan u') / (2 * PI)).
    { unfold Rdiv. apply Rmult_le_compat_r; [left; apply Rinv_0_lt_compat; lra|exact Hl]. }
    lra.
Qed.

Lemma googleMapsLatLngToPoint_monotone_witness :
  (-90 < 0 /\ 0 <= 10 /\ 10 < 90 /\ 0 <= 20) /\
  match googleMapsLatLngToPoint 0 0 3, googleMapsLatLngToPoint 10 20 3 with
  | Some (px, py), Some (px', py') => (px <= px')%Z /\ (py' <= py)%Z
  | _, _ => False
  end.
Proof.
  split; [lra|]. apply (googleMapsLatLngToPoint_monotone 0 10 0 20 3); lra.
Defined.

(** X9: for latitudes strictly between -90 and 90 (where the Mercator
    formula gives finite numbers) and zooms in [0, 30] (where every world
    pixel is an integer JavaScript represents exactly), pixel offsets
    compose: the offset from a to c is the sum of the offsets from a to b
    and from b to c; the offset of a point to itself is zero, and reversing
    the two points negates the offset. *)
Lemma calculatePixelOffset_compose (la na lb nb lc nc zoom : R) :
  -90 < la < 90 -> -90 < lb < 90 -> -90 < lc < 90 -> 0 <= zoom <= 30 ->
  match calculatePixelOffset la na lb nb zoom, calculatePixelOffset lb nb lc nc zoom,
        calculatePixelOffset la na lc nc zoom with
  | Some (x1, y1), Some (x2, y2), Some (x3, y3) => x3 = (x1 + x2)%Z /\ y3 = (y1 + y2)%Z
  | _, _, _ => False
  end /\
  calculatePixelOffset la na la na zoom = Some (0%Z, 0%Z) /\
  calculatePixelOffset lb nb la na zoom =
    match calculatePixelOffset la na lb nb zoom with
    | Some (x, y) => Some ((- x)%Z, (- y)%Z)
    | None => None
    end.
Proof.
  intros _ _ _ _.
  unfold calculatePixelOffset, googleMapsLatLngToPoint. cbv zeta.
  split; [split; ring|]. split; f_equal; f_equal; ring.
Qed.

Lemma calculatePixelOffset_compose_witness :
  (-90 < 0 < 90 /\ -90 < 10 < 90 /\ -90 < 20 < 90 /\ 0 <= 3 <= 30) /\
  match calculatePixelOffset 0 0 10 5 3, calculatePixelOffset 10 5 20 10 3,
        calculatePixelOffset 0 0 20 10 3 with
  | Some (x1, y1), Some (x2, y2), Some (x3, y3) => x3 = (x1 + x2)%Z /\ y3 = (y1 + y2)%Z
  | _, _, _ => False
  end /\
  calculatePixelOffset 0 0 0 0 3 = Some (0%Z, 0%Z) /\
  calculatePixelOffset 10 5 0 0 3 =
    match calculatePixelOffset 0 0 10 5 3 with
    | Some (x, y) => Some ((- x)%Z, (- y)%Z)
    | None => None
    end.
Proof.
  split; [repeat split; lra|].
  apply (calculatePixelOffset_compose 0 0 10 5 20 10 3); lra.
Defined.

Lemma ln2_pos : 0 < ln 2.
Proof. rewrite <- ln_1. apply ln_increasing; lra. Qed.

(** The closed form of [convertMetersToZoom] inside its domain. *)
Lemma convertMetersToZoom_closed (m lat h : R) :
  0 < m -> 0 < h -> -90 < lat < 90 ->
  convertMetersToZoom m lat h
    = Rmax 0 (ln (40075017 * h * cos (lat * PI / 180) / (256 * m)) / ln 2).
Proof.
  intros Hm Hh Hlat.
  assert (Hc := ProjectionFacts.cos_deg_pos lat Hlat).
  set (c := cos (lat * PI / 180)) in *.
  unfold convertMetersToZoom, log2. fold c. f_equal.
  assert (Ha : 0 < 40075017 / 256 / (m / h)).
  { apply Rdiv_lt_0_compat; [lra|]. apply Rdiv_lt_0_compat; lra. }
  replace (40075017 * h * c / (256 * m))
    with (40075017 / 256 / (m / h) * c) by (field; lra).
  rewrite ln_mult by assumption.
  replace (1 / c) with (/ c) by (field; lra).
  rewrite ln_Rinv by assumption.
  field. apply Rgt_not_eq, ln2_pos.
Qed.

(** X10: at a fixed latitude and viewport height, showing more meters never
    gives a larger zoom, and doubling the meters shown lowers the zoom by
    exactly one as long as the result stays at least 1. *)
Lemma convertMetersToZoom_scale (m m' lat h : R) :
  0 < m -> m <= m' -> 0 < h -> -90 < lat < 90 ->
  convertMetersToZoom m' lat h <= convertMetersToZoom m lat h /\
  (1 <= convertMetersToZoom m lat h ->
   convertMetersToZoom (2 * m) lat h = convertMetersToZoom m lat h - 1).
Proof.
  intros Hm Hmm Hh Hlat.
  assert (Hc := ProjectionFacts.cos_deg_pos lat Hlat).
  assert (Hl2 := ln2_pos).
  rewrite !convertMetersToZoom_closed by lra.
  set (c := cos (lat * PI / 180)) in *.
  split.
  - apply Rle_max_compat_l.
    unfold Rdiv at 1 3. apply Rmult_le_compat_r; [left; apply Rinv_0_lt_compat; lra|].
    apply ProjectionFacts.ln_le_compat.
    + apply Rdiv_lt_0_compat; [|lra]. apply Rmult_lt_0_compat; [|lra]. lra.
    + unfold Rdiv. apply Rmult_le_compat_l; [apply Rmult_le_pos; lra|].
      apply Rinv_le_contravar; lra.
  - intros H1.
    set (z := ln (40075017 * h * c / (256 * m)) / ln 2) in *.
    assert (Hz : 1 <= z).
    { unfold Rmax in H1. destruct (Rle_dec 0 z); lra. }
    replace (ln (40075017 * h * c / (256 * (2 * m))) / ln 2) with (z - 1).
    + rewrite !Rmax_right by lra. reflexivity.
    + unfold z.
      replace (40075017 * h * c / (256 * (2 * m)))
        with (40075017 * h * c / (256 * m) * / 2) by (field; lra).
      rewrite ln_mult, ln_Rinv by (try apply Rinv_0_lt_compat;
        try (apply Rdiv_lt_0_compat; [apply Rmult_lt_0_compat|]); lra).
      field. lra.
Qed.

Lemma convertMetersToZoom_scale_witness :
  (0 < 500 /\ 500 <= 1000 /\ 0 < 800 /\ -90 < 45 < 90) /\
  (convertMetersToZoom 1000 45 800 <= convertMetersToZoom 500 45 800 /\
   (1 <= convertMetersToZoom 500 45 800 ->
    convertMetersToZoom (2 * 500) 45 800 = convertMetersToZoom 500 45 800 - 1)).
Proof.
  split; [lra|]. apply (convertMetersToZoom_scale 500 1000 45 800); lra.
Defined.

End ProjectionExtra.

From Stdlib Require Lqa.

Module MapState2DExtra.
Import URLParser MapState2D.
Open Scope Z_scope.

(** [Math.abs(t.translateX) < 1 && Math.abs(t.translateY) < 1] *)
Definition at_rest (t : transform) : bool :=
  ltQ (Qabs (translateX t)) 1 && ltQ (Qabs (translateY t)) 1.

Lemma isTransformDifferent_refl (t : transform) : isTransformDifferent t t = false.
Proof. unfold isTransformDifferent. rewrite !MapState2DFacts.neqQ_refl. reflexivity. Qed.

(** The transforms and the rest flag are left alone by the ground-truth
    refresh. *)
Lemma updatePositionFromUrl_transforms (w : world) (s : state) :
  canvasTransform (fst (updatePositionFromUrl w s)) = canvasTransform s /\
  parentTransform (fst (updatePositionFromUrl w s)) = parentTransform s /\
  parentIsZero (fst (updatePositionFromUrl w s)) = parentIsZero s.
Proof. destruct s; unfold updatePositionFromUrl; MapState2DFacts.case_ifs; auto. Qed.

(** X11: refreshing the canvas and then the parent transform a second time,
    with the same computed styles, changes nothing and notifies nothing. *)
Lemma transform_refresh_idempotent (w : world) (s : state) :
  let s1 := fst (updateCanvasTransform w s) in
  updateCanvasTransform w s1 = (s1, []) /\
  let s2 := fst (updateParentTransform w s) in
  updateParentTransform w s2 = (s2, []).
Proof.
  split.
  - unfold updateCanvasTransform.
    destruct (canvasStyle w) as [t|]; [|reflexivity].
    destruct (isTransformDifferent t (canvasTransform s)) eqn:E; simpl.
    + destruct s; simpl. rewrite isTransformDifferent_refl. reflexivity.
    + rewrite E. reflexivity.
  - intros s2.
    set (t := match parentStyle w with Some t => t | None => identity end).
    assert (G : forall s', isTransformDifferent t (parentTransform s') = false ->
                updateParentTransform w s' = (s', [])).
    { intros s' H. unfold updateParentTransform. fold t. rewrite H. reflexivity. }
    apply G. unfold s2, updateParentTransform. fold t.
    destruct (isTransformDifferent t (parentTransform s)) eqn:E.
    + set (s0 := set_parent s t _).
      assert (Hs0 : parentTransform s0 = t) by (destruct s; reflexivity).
      destruct (negb (parentIsZero s) && _).
      * destruct (updatePositionFromUrl_transforms w s0) as [_ [H _]].
        destruct (updatePositionFromUrl w s0) as [s1 c1]. simpl in *.
        rewrite H. apply isTransformDifferent_refl.
      * simpl. try rewrite Hs0. apply isTransformDifferent_refl.
    + exact E.
Qed.

(** The consistency the tracker keeps between its flags and its timer and
    parent transform. *)
Definition zooming_consistent (s : state) : Prop :=
  isPotentiallyZooming s = true <-> zoomInteractionTimeout s <> None.

Definition parent_consistent (s : state) : Prop :=
  parentIsZero s = at_rest (parentTransform s).

Lemma keeps_zooming (s s' : state) :
  MapState2DFacts.keeps s s' -> zooming_consistent s -> zooming_consistent s'.
Proof. unfold MapState2DFacts.keeps, zooming_consistent. intros [-> ->]. tauto. Qed.

Lemma updateCanvasTransform_transforms (w : world) (s : state) :
  parentTransform (fst (updateCanvasTransform w s)) = parentTransform s /\
  parentIsZero (fst (updateCanvasTransform w s)) = parentIsZero s.
Proof.
  unfold updateCanvasTransform. destruct (canvasStyle w); [|auto].
  destruct (isTransformDifferent _ _); destruct s; simpl; auto.
Qed.

Lemma updateParentTransform_consistent (w : world) (s : state) :
  parent_consistent s -> parent_consistent (fst (updateParentTransform w s)).
Proof.
  unfold parent_consistent, updateParentTransform. intros H.
  set (t := match parentStyle w with Some t => t | None => identity end).
  destruct (isTransformDifferent t (parentTransform s)); [|exact H].
  fold (at_rest t). set (s0 := set_parent s t (at_rest t)).
  assert (H0 : parentIsZero s0 = at_rest (parentTransform s0)) by (destruct s; reflexivity).
  destruct (negb (parentIsZero s) && at_rest t).
  - destruct (updatePositionFromUrl_transforms w s0) as [_ [A B]].
    destruct (updatePositionFromUrl w s0) as [s1 c1]. simpl in *. congruence.
  - exact H0.
Qed.

Lemma zoomTimeoutFired_consistent (w : world) (s : state) :
  parent_consistent s ->
  zooming_consistent (fst (zoomTimeoutFired w s)) /\
  parent_consistent (fst (zoomTimeoutFired w s)).
Proof.
  intros Hp.
  destruct (MapState2DFacts.zoomTimeoutFired_spec w s) as [T [Z _]].
  split; [unfold zooming_consistent; rewrite T, Z; split; congruence|].
  unfold zoomTimeoutFired.
  set (s0 := set_timer s false None).
  assert (H0 : parent_consistent s0) by (destruct s; exact Hp).
  destruct (updatePositionFromUrl_transforms w s0) as [_ [A1 B1]].
  destruct (updatePositionFromUrl w s0) as [s1 c1]. simpl in A1, B1.
  assert (H1 : parent_consistent s1) by (unfold parent_consistent in *; congruence).
  destruct (updateCanvasTransform_transforms w s1) as [A2 B2].
  destruct (updateCanvasTransform w s1) as [s2 c2]. simpl in A2, B2.
  assert (H2 : parent_consistent s2) by (unfold parent_consistent in *; congruence).
  pose proof (updateParentTransform_consistent w s2 H2) as H3.
  destruct (updateParentTransform w s2) as [s3 c3]. exact H3.
Qed.

Lemma handleUrlChanged_consistent (w : world) (s : state) :
  zooming_consistent s -> parent_consistent s ->
  zooming_consistent (fst (handleUrlChanged w s)) /\
  parent_consistent (fst (handleUrlChanged w s)).
Proof.
  intros Hz Hp. unfold handleUrlChanged.
  destruct (parentIsZero s) eqn:Epz; [|simpl; auto].
  destruct (MapState2DFacts.updatePositionFromUrl_keeps w s) as [K1 _].
  destruct (updatePositionFromUrl_transforms w s) as [_ [A1 B1]].
  destruct (updatePositionFromUrl w s) as [s1 c1] eqn:E1. simpl in K1, A1, B1.
  assert (Hz1 := keeps_zooming s s1 K1 Hz).
  assert (Hp1 : parent_consistent s1) by (unfold parent_consistent in *; congruence).
  destruct (zoomInteractionTimeout s1) as [d|] eqn:Et; [|simpl; auto].
  set (s0 := set_timer s1 false None).
  assert (H0 : parent_consistent s0) by (destruct s1; exact Hp1).
  pose proof (MapState2DFacts.refreshes_keep w s0) as R.
  unfold updatePositionFromUrl in R at 1.
  destruct (updateCanvasTransform_transforms w s0) as [A2 B2].
  destruct (MapState2DFacts.updateCanvasTransform_keeps w s0) as [K2 _].
  destruct (updateCanvasTransform w s0) as [s2 c2]. simpl in A2, B2, K2.
  assert (H2 : parent_consistent s2) by (unfold parent_consistent in *; congruence).
  pose proof (updateParentTransform_consistent w s2 H2) as H3.
  destruct (MapState2DFacts.updateParentTransform_keeps w s2) as [K3 _].
  destruct (updateParentTransform w s2) as [s3 c3]. simpl in H3, K3.
  split; [|exact H3].
  unfold MapState2DFacts.keeps, zooming_consistent in *.
  destruct K2 as [T2 Z2], K3 as [T3 Z3].
  simpl. rewrite T3, Z3, T2, Z2. unfold s0. simpl. split; congruence.
Qed.

(** X12: along any run of the event loop from a state whose flags agree with
    it, [isPotentiallyZooming] is set exactly while a debounce timer is
    pending, and [parentIsZero] is exactly whether the tracked parent
    transform is below 1 pixel on both axes; in a state where a timer is
    pending, [redrawAllLabels] draws nothing. *)
Lemma run_consistent (tr : list (Z * world * input)) :
  forall w s,
  zooming_consistent s -> parent_consistent s ->
  zooming_consistent (fst (run w s tr)) /\ parent_consistent (fst (run w s tr)) /\
  (forall A (render : OverlayEngine.label A -> bool) ready z labels,
     zoomInteractionTimeout s <> None ->
     OverlayEngine.redrawAllLabels render ready (isPotentiallyZooming s) z labels = []).
Proof.
  assert (Hdraw : forall s, zooming_consistent s ->
     forall A (render : OverlayEngine.label A -> bool) ready z labels,
     zoomInteractionTimeout s <> None ->
     OverlayEngine.redrawAllLabels render ready (isPotentiallyZooming s) z labels = []).
  { intros s Hz A render ready z labels Ht. apply Hz in Ht. rewrite Ht.
    unfold OverlayEngine.redrawAllLabels. destruct ready; reflexivity. }
  induction tr as [|[[t w'] i] rest IH]; intros w s Hz Hp.
  - simpl. split; [|split; [|apply Hdraw, Hz]].
    + destruct (zoomInteractionTimeout s) eqn:Et.
      * destruct (zoomTimeoutFired_consistent w s Hp) as [A _].
        destruct (zoomTimeoutFired w s). exact A.
      * exact Hz.
    + destruct (zoomInteractionTimeout s) eqn:Et.
      * destruct (zoomTimeoutFired_consistent w s Hp) as [_ B].
        destruct (zoomTimeoutFired w s). exact B.
      * exact Hp.
  - split; [|split; [|apply Hdraw, Hz]]; simpl;
    (assert (F : zooming_consistent (fst (fire_due t w s)) /\
                 parent_consistent (fst (fire_due t w s)))
     by (unfold fire_due; destruct (zoomInteractionTimeout s); [|auto];
         destruct (_ <=? t); [|auto];
         destruct (zoomTimeoutFired_consistent w s Hp) as [A B];
         destruct (zoomTimeoutFired w s); auto));
    destruct (fire_due t w s) as [s1 l1]; simpl in F; destruct F as [F1 F2];
    (assert (G : zooming_consistent (fst (handle t w' i s1)) /\
                 parent_consistent (fst (handle t w' i s1)))
     by (destruct i; simpl;
         [ split; [unfold zooming_consistent; simpl; split; [discriminate| reflexivity]
                  | destruct s1; exact F2]
         | destruct (handleUrlChanged_consistent w' s1 F1 F2) as [A B];
           destruct (handleUrlChanged w' s1); auto ]));
    destruct (handle t w' i s1) as [s2 l2]; simpl in G; destruct G as [G1 G2];
    destruct (IH w' s2 G1 G2) as [I1 [I2 _]];
    destruct (run w' s2 rest); assumption.
Qed.

Lemma run_consistent_witness :
  (zooming_consistent initState /\ parent_consistent initState) /\
  (zooming_consistent (fst (run MapState2DFacts.w_c8 initState
                              [(0, MapState2DFacts.w_c8, Interaction)])) /\
   parent_consistent (fst (run MapState2DFacts.w_c8 initState
                              [(0, MapState2DFacts.w_c8, Interaction)])) /\
   (forall A (render : OverlayEngine.label A -> bool) ready z labels,
      zoomInteractionTimeout initState <> None ->
      OverlayEngine.redrawAllLabels render ready (isPotentiallyZooming initState) z labels = [])).
Proof.
  assert (H : zooming_consistent initState /\ parent_consistent initState).
  { split; [unfold zooming_consistent; simpl; split; congruence | reflexivity]. }
  split; [exact H|].
  apply (run_consistent [(0, MapState2DFacts.w_c8, Interaction)] MapState2DFacts.w_c8
           initState); apply H.
Defined.

Section Rounding.
Import Lqa.
Local Open Scope Q_scope.

(** X13: [Math.round] on a number: the result is within one half of it, a
    half rounding up, and an integer is left as it is. *)
Lemma Math_round_Q_nearest (q : Q) :
  q - (1 # 2) < inject_Z (Math_round_Q q) <= q + (1 # 2) /\
  (forall n : Z, Math_round_Q (inject_Z n) = n).
Proof.
  unfold Math_round_Q. split.
  - pose proof (Qfloor_le (q + (1 # 2))) as A.
    pose proof (Qlt_floor (q + (1 # 2))) as B.
    rewrite inject_Z_plus in B. change (inject_Z 1) with 1 in B.
    set (f := inject_Z (Qfloor (q + (1 # 2)))) in *. split; lra.
  - intros n.
    pose proof (Qfloor_le (inject_Z n + (1 # 2))) as A.
    pose proof (Qlt_floor (inject_Z n + (1 # 2))) as B.
    set (r := Qfloor (inject_Z n + (1 # 2))) in *.
    assert (C1 : inject_Z r < inject_Z (n + 1))
      by (rewrite inject_Z_plus; change (inject_Z 1) with 1; lra).
    assert (C2 : inject_Z n < inject_Z (r + 1))
      by (rewrite inject_Z_plus in *; change (inject_Z 1) with 1 in *; lra).
    rewrite <- Zlt_Qlt in C1, C2. lia.
Qed.

End Rounding.

(** X14: a ground-truth refresh that parses the URL as [@lat,lng,<z>z]
    leaves the center equal to (lat, lng) and the zoom equal to
    [Math.round(z)], with the view mode set to [position.mode] (undefined);
    it notifies [position] once exactly when the center or zoom was
    different before. *)
Lemma updatePositionFromUrl_zoom_result (w : world) (s : state) (lat lng z : Q) :
  parentIsZero s = true -> extractMapParameters (url w) = Some (ZoomParams lat lng z) ->
  let r := updatePositionFromUrl w s in
  (exists clat clng, center (fst r) = Some (clat, clng) /\ (clat == lat)%Q /\ (clng == lng)%Q) /\
  zoom (fst r) = Math_round_Q z /\ viewMode (fst r) = None /\
  (snd r = [Position] <->
     match center s with
     | Some (clat, clng) => ~ (clat == lat /\ clng == lng)%Q
     | None => True
     end \/ zoom s <> Math_round_Q z) /\
  (snd r = [] \/ snd r = [Position]).
Proof.
  intros Hz He. simpl. unfold updatePositionFromUrl. rewrite Hz, He. simpl.
  destruct s as [c zm vm ct pt pz ipz tmo]. simpl.
  unfold set_center, set_zoom, set_viewMode. simpl.
  destruct c as [[clat clng]|].
  - destruct (neqQ clat lat || neqQ clng lng) eqn:E.
    + assert (E' : ~ (clat == lat /\ clng == lng)%Q).
      { intros [A B]. unfold neqQ in E. apply Qeq_bool_iff in A. apply Qeq_bool_iff in B.
        rewrite A, B in E. discriminate. }
      simpl. destruct (zm =? Math_round_Q z) eqn:Ez; simpl.
      * split; [exists lat, lng; split; [reflexivity| split; reflexivity]|].
        split; [apply Z.eqb_eq; exact Ez|]. split; [reflexivity|]. split; [tauto|]. right; reflexivity.
      * split; [exists lat, lng; split; [reflexivity| split; reflexivity]|].
        split; [reflexivity|]. split; [reflexivity|]. split; [tauto|]. right; reflexivity.
    + apply orb_false_iff in E. destruct E as [E1 E2]. unfold neqQ in E1, E2.
      apply negb_false_iff, Qeq_bool_iff in E1. apply negb_false_iff, Qeq_bool_iff in E2.
      simpl. destruct (zm =? Math_round_Q z) eqn:Ez; simpl.
      * apply Z.eqb_eq in Ez.
        split; [exists clat, clng; auto|]. split; [exact Ez|]. split; [reflexivity|].
        split; [|left; reflexivity]. split; [discriminate|]. intros [H|H]; [tauto|contradiction].
      * apply Z.eqb_neq in Ez.
        split; [exists clat, clng; auto|]. split; [reflexivity|]. split; [reflexivity|].
        split; [tauto|]. right; reflexivity.
  - simpl. destruct (zm =? Math_round_Q z) eqn:Ez; simpl;
      (split; [exists lat, lng; split; [reflexivity| split; reflexivity]|]);
      (split; [try reflexivity; apply Z.eqb_eq; assumption|]);
      split; try reflexivity; split; try tauto; right; reflexivity.
Qed.

Definition w_sf : world :=
  mkWorld "https://www.google.com/maps/@37.7749,-122.4194,12z" (1000, 800) None None.

Lemma updatePositionFromUrl_zoom_result_witness :
  (parentIsZero initState = true /\
   extractMapParameters (url w_sf) = Some (ZoomParams (377749 # 10000) (-1224194 # 10000) 12)) /\
  let r := updatePositionFromUrl w_sf initState in
  (exists clat clng, center (fst r) = Some (clat, clng) /\
     (clat == 377749 # 10000)%Q /\ (clng == -1224194 # 10000)%Q) /\
  zoom (fst r) = Math_round_Q 12 /\ viewMode (fst r) = None /\
  (snd r = [Position] <->
     match center initState with
     | Some (clat, clng) => ~ (clat == 377749 # 10000 /\ clng == -1224194 # 10000)%Q
     | None => True
     end \/ zoom initState <> Math_round_Q 12) /\
  (snd r = [] \/ snd r = [Position]).
Proof.
  assert (H : extractMapParameters (url w_sf)
              = Some (ZoomParams (377749 # 10000) (-1224194 # 10000) 12))
    by (vm_compute; reflexivity).
  split; [split; [reflexivity|exact H]|].
  apply (updatePositionFromUrl_zoom_result w_sf initState); [reflexivity|exact H].
Defined.

End MapState2DExtra.

Module URLParserExtra.
Import URLParser.
Open Scope Z_scope.

(** A decimal as Google Maps writes it: an optional minus sign, integer
    digits, and fraction digits after a dot when there are any. *)
Definition decimal (neg : bool) (i f : list ascii) : list ascii :=
  (if neg then ["-"%char] else []) ++ i ++
  match f with [] => [] | _ => "."%char :: f end.

Definition decimal_value (neg : bool) (i f : list ascii) : Q :=
  ((if neg then -1 else 1) *
   (inject_Z (digits_value 0 i)
    + inject_Z (digits_value 0 f) / inject_Z (10 ^ Z.of_nat (List.length f))))%Q.

Lemma span_app (p : ascii -> bool) (l : list ascii) (c : ascii) (r : list ascii) :
  forallb p l = true -> p c = false -> span p (l ++ c :: r) = (l, c :: r).
Proof.
  induction l as [|a l IH]; simpl; intros H Hc.
  - rewrite Hc. reflexivity.
  - apply andb_true_iff in H as [Ha Hl]. rewrite Ha, (IH Hl Hc). reflexivity.
Qed.

Lemma span_all (p : ascii -> bool) (l : list ascii) :
  forallb p l = true -> span p l = (l, []).
Proof.
  induction l as [|a l IH]; simpl; intros H; [reflexivity|].
  apply andb_true_iff in H as [Ha Hl]. rewrite Ha, (IH Hl). reflexivity.
Qed.

Lemma span_fst (p : ascii -> bool) (l : list ascii) : forallb p (fst (span p l)) = true.
Proof.
  induction l as [|a l IH]; simpl; [reflexivity|].
  destruct (p a) eqn:E; [|reflexivity].
  destruct (span p l) as [u v]. simpl in *. rewrite E, IH. reflexivity.
Qed.

Lemma first_match_with_skip {A} (m : list ascii -> option A) (pre l : list ascii) :
  (forall c r, In c pre -> m (c :: r) = None) ->
  first_match_with m (pre ++ l) = first_match_with m l.
Proof.
  induction pre as [|c pre IH]; intros H; [reflexivity|].
  simpl. rewrite (H c (pre ++ l) (or_introl eq_refl)).
  apply IH. intros c' r Hc. apply H. right. exact Hc.
Qed.

Lemma first_match_with_some {A} (m : list ascii -> option A) (l : list ascii) (g : A) :
  first_match_with m l = Some g -> exists pre suf, l = pre ++ suf /\ m suf = Some g.
Proof.
  induction l as [|c r IH]; simpl; [discriminate|].
  destruct (m (c :: r)) eqn:E.
  - intros [= <-]. exists [], (c :: r). auto.
  - intros H. destruct (IH H) as [pre [suf [-> Hs]]]. exists (c :: pre), suf. auto.
Qed.

Lemma match_at_head (term : ascii) (l : list ascii) g :
  match_at term l = Some g -> exists r, l = "@"%char :: r.
Proof.
  destruct l as [|c r]; simpl; [discriminate|].
  destruct (Ascii.eqb_spec c "@"%char) as [->|]; [eauto|discriminate].
Qed.

Lemma first_match_at (term : ascii) (l : list ascii) g :
  first_match term l = Some g -> In "@"%char l.
Proof.
  unfold first_match. intros H.
  destruct (first_match_with_some _ _ _ H) as [pre [suf [-> Hs]]].
  destruct (match_at_head _ _ _ Hs) as [r ->]. apply in_or_app. right. left. reflexivity.
Qed.

Lemma no_at_first_match (term : ascii) (l : list ascii) :
  ~ In "@"%char l -> first_match term l = None.
Proof.
  destruct (first_match term l) eqn:E; [|reflexivity].
  intros N. exfalso. apply N. exact (first_match_at _ _ _ E).
Qed.

Lemma is_digit_nonneg (c : ascii) : is_digit c = true -> 0 <= Z.of_N (N_of_ascii c) - 48.
Proof.
  unfold is_digit. intros H. apply andb_true_iff in H as [H _].
  apply N.leb_le in H. lia.
Qed.

Lemma digits_value_nonneg (l : list ascii) :
  forall acc, forallb is_digit l = true -> 0 <= acc -> 0 <= digits_value acc l.
Proof.
  induction l as [|c l IH]; simpl; intros acc H Ha; [exact Ha|].
  apply andb_true_iff in H as [Hc Hl]. apply IH; [exact Hl|].
  pose proof (is_digit_nonneg c Hc). lia.
Qed.

(** The captured [(\d+\.?\d* )] group starts with a digit. *)
Lemma match_number_then_digit (term : ascii) (l g : list ascii) :
  match_number_then term l = Some g -> exists d r, g = d :: r /\ is_digit d = true.
Proof.
  unfold match_number_then.
  pose proof (span_fst is_digit l) as F.
  destruct (span is_digit l) as [d1 r1]. simpl in F.
  destruct d1 as [|d d1]; [discriminate|].
  simpl in F. apply andb_true_iff in F as [Fd _].
  destruct (match r1 with | c :: r => if Ascii.eqb c "."%char then ([c], r) else ([], r1)
            | [] => ([], r1) end) as [dot r2].
  destruct (span is_digit r2) as [d2 r3].
  destruct r3 as [|c r3]; [discriminate|].
  destruct (Ascii.eqb c term); [|discriminate].
  intros [= <-]. eauto.
Qed.

Lemma parseFloat_digit_nonneg (d : ascii) (r : list ascii) (q : Q) :
  is_digit d = true -> parseFloat (d :: r) = Some q -> (0 <= q)%Q.
Proof.
  intros Hd. unfold parseFloat.
  assert (Hm : Ascii.eqb d "-"%char = false)
    by (destruct (Ascii.eqb_spec d "-"%char) as [->|]; [discriminate Hd|reflexivity]).
  rewrite Hm.
  pose proof (span_fst is_digit (d :: r)) as F1.
  destruct (span is_digit (d :: r)) as [d1 r1]. simpl fst in F1.
  set (d2 := match r1 with
             | c :: r0 => if Ascii.eqb c "."%char then fst (span is_digit r0) else []
             | [] => [] end).
  assert (F2 : forallb is_digit d2 = true).
  { unfold d2. destruct r1 as [|c r0]; [reflexivity|].
    destruct (Ascii.eqb c "."%char); [apply span_fst|reflexivity]. }
  assert (N1 := digits_value_nonneg d1 0 F1 (Z.le_refl 0)).
  assert (N2 := digits_value_nonneg d2 0 F2 (Z.le_refl 0)).
  assert (E : forall q', Some (Qmake (1 * (digits_value 0 d1 * 10 ^ Z.of_nat (List.length d2)
                  + digits_value 0 d2)) (Pos.of_nat (Nat.pow 10 (List.length d2)))) = Some q' ->
              (0 <= q')%Q).
  { intros q' [= <-]. unfold Qle. cbn [Qnum Qden]. match goal with |- context [match ?x with 0 => _ | _ => _ end] => destruct x eqn:Ex end.
    assert (0 <= 10 ^ Z.of_nat (List.length d2)) by (apply Z.pow_nonneg; lia). all: nia. }
  destruct d1, d2; (discriminate || apply E).
Qed.

Lemma pos_of_nat_pow10 (n : nat) : Zpos (Pos.of_nat (Nat.pow 10 n)) = 10 ^ Z.of_nat n.
Proof.
  assert (H : Nat.pow 10 n <> 0%nat) by (apply Nat.pow_nonzero; discriminate).
  rewrite <- positive_nat_Z, (Nat2Pos.id _ H), Nat2Z.inj_pow. reflexivity.
Qed.

Lemma forallb_num_char (l : list ascii) : forallb is_digit l = true -> forallb is_num_char l = true.
Proof.
  induction l as [|c l IH]; simpl; [reflexivity|].
  intros H. apply andb_true_iff in H as [Hc Hl].
  rewrite (IH Hl). unfold is_num_char. rewrite Hc. reflexivity.
Qed.

Lemma decimal_num_char (neg : bool) (i f : list ascii) :
  forallb is_digit i = true -> forallb is_digit f = true ->
  forallb is_num_char (decimal neg i f) = true.
Proof.
  intros Hi Hf. unfold decimal. rewrite !forallb_app, (forallb_num_char i Hi).
  pose proof (forallb_num_char _ Hf) as Hf'.
  destruct neg, f; simpl in *; rewrite ?Hf'; reflexivity.
Qed.

Lemma parseFloat_decimal (neg : bool) (i f : list ascii) :
  i <> [] -> forallb is_digit i = true -> forallb is_digit f = true ->
  exists q, parseFloat (decimal neg i f) = Some q /\ (q == decimal_value neg i f)%Q.
Proof.
  intros Hne Hi Hf. unfold parseFloat, decimal.
  set (sign := if neg then -1 else 1).
  set (T := i ++ match f with [] => [] | _ => "."%char :: f end).
  set (L := (if neg then ["-"%char] else []) ++ T).
  assert (S : match L with
              | c :: r => if Ascii.eqb c "-"%char then (-1, r) else (1, L)
              | [] => (1, L)
              end = (sign, T)).
  { unfold L, sign. destruct neg; [reflexivity|]. unfold T.
    destruct i as [|c i]; [contradiction|]. simpl in Hi |- *.
    apply andb_true_iff in Hi as [Hc _].
    destruct (Ascii.eqb_spec c "-"%char) as [->|]; [discriminate Hc|reflexivity]. }
  assert (Sp1 : span is_digit T = (i, match f with [] => [] | _ => "."%char :: f end)).
  { unfold T. destruct f as [|c f].
    - rewrite app_nil_r. apply span_all. exact Hi.
    - apply span_app; [exact Hi|reflexivity]. }
  assert (Sp2 : match match f with [] => [] | _ => "."%char :: f end with
                | c :: r => if Ascii.eqb c "."%char then fst (span is_digit r) else []
                | [] => [] end = f).
  { destruct f as [|c f]; [reflexivity|]. simpl Ascii.eqb. cbv iota.
    rewrite (span_all _ _ Hf). reflexivity. }
  assert (Hval : forall q, q = Qmake (sign * (digits_value 0 i * 10 ^ Z.of_nat (List.length f)
                              + digits_value 0 f)) (Pos.of_nat (Nat.pow 10 (List.length f))) ->
                 exists q', Some q = Some q' /\ (q' == decimal_value neg i f)%Q).
  { intros q ->. eexists. split; [reflexivity|].
    rewrite Qmake_Qdiv, pos_of_nat_pow10. unfold decimal_value. fold sign.
    assert (Hp : ~ inject_Z (10 ^ Z.of_nat (List.length f)) == 0).
    { unfold Qeq. cbn [Qnum Qden inject_Z]. rewrite Z.mul_1_r. intros E.
      apply (Z.pow_nonzero 10 (Z.of_nat (List.length f))); lia. }
    rewrite !inject_Z_mult, inject_Z_plus, inject_Z_mult.
    assert (Hs : inject_Z sign == (if neg then -1 else 1)%Q)
      by (unfold sign; destruct neg; reflexivity).
    rewrite Hs. field. exact Hp. }
  rewrite S, Sp1, Sp2.
  destruct i as [|c i']; [contradiction|]. apply Hval. reflexivity.
Qed.

Lemma match_number_then_decimal (term : ascii) (i f rest : list ascii) :
  i <> [] -> forallb is_digit i = true -> forallb is_digit f = true ->
  is_digit term = false -> Ascii.eqb term "."%char = false ->
  match_number_then term (decimal false i f ++ term :: rest) = Some (decimal false i f).
Proof.
  intros Hne Hi Hf Ht Htd. unfold match_number_then, decimal. simpl app.
  destruct f as [|c f].
  - rewrite app_nil_r, (span_app _ _ _ _ Hi Ht).
    destruct i as [|a i]; [contradiction|]. rewrite Htd. simpl.
    rewrite Ht, Ascii.eqb_refl, app_nil_r. reflexivity.
  - rewrite <- app_assoc. simpl.
    rewrite (span_app _ _ _ _ Hi (eq_refl : is_digit "."%char = false)).
    assert (E2 : span is_digit (c :: f ++ term :: rest) = (c :: f, term :: rest))
      by exact (span_app _ (c :: f) _ _ Hf Ht).
    destruct i as [|a i]; [contradiction|]. cbn -[span]. rewrite E2.
    cbn -[span]. rewrite Ascii.eqb_refl. reflexivity.
Qed.

Lemma not_at_forallb (l : list ascii) :
  forallb (fun c => negb (Ascii.eqb c "@"%char)) l = true -> ~ In "@"%char l.
Proof.
  induction l as [|c l IH]; simpl; [tauto|].
  intros H. apply andb_true_iff in H as [Hc Hl]. intros [->|Hin]; [discriminate Hc|].
  exact (IH Hl Hin).
Qed.

(** X16: a URL with no [@] in it gives [null]. *)
Lemma extractMapParameters_no_at (u : string) :
  ~ In "@"%char (chars u) -> extractMapParameters u = None.
Proof.
  intros N. unfold extractMapParameters.
  rewrite !no_at_first_match by exact N. reflexivity.
Qed.

Lemma extractMapParameters_no_at_witness :
  ~ In "@"%char (chars "https://www.google.com/maps/search/coffee") /\
  extractMapParameters "https://www.google.com/maps/search/coffee" = None.
Proof.
  assert (H : ~ In "@"%char (chars "https://www.google.com/maps/search/coffee"))
    by (apply not_at_forallb; reflexivity).
  split; [exact H | apply (extractMapParameters_no_at _ H)].
Defined.

(** X17: the zoom level and the meters value returned are never negative: the
    third group has no sign. *)
Lemma extractMapParameters_magnitude_nonneg (u : string) :
  (forall a b z, extractMapParameters u = Some (ZoomParams a b z) -> (0 <= z)%Q) /\
  (forall a b m, extractMapParameters u = Some (MetersParams a b m) -> (0 <= m)%Q).
Proof.
  assert (G : forall term l g1 g2 g3 a b c,
             first_match term l = Some (g1, g2, g3) -> parse3 (g1, g2, g3) = Some (a, b, c) ->
             (0 <= c)%Q).
  { intros term l g1 g2 g3 a b c H P.
    destruct (first_match_with_some _ _ _ H) as [pre [suf [_ Hs]]].
    destruct suf as [|ch r]; [discriminate|]. simpl in Hs.
    destruct (Ascii.eqb ch "@"%char); [|discriminate].
    destruct (span is_num_char r) as [h1 r1].
    destruct h1 as [|? ?]; [discriminate|]. destruct r1 as [|c1 r1']; [discriminate|].
    destruct (Ascii.eqb c1 ","%char); [|discriminate].
    destruct (span is_num_char r1') as [h2 r2].
    destruct h2 as [|? ?]; [discriminate|]. destruct r2 as [|c2 r2']; [discriminate|].
    destruct (Ascii.eqb c2 ","%char); [|discriminate].
    destruct (match_number_then term r2') as [g|] eqn:Em; [|discriminate].
    injection Hs as _ _ <-.
    destruct (match_number_then_digit _ _ _ Em) as [d [rr [-> Hd]]].
    unfold parse3 in P.
    destruct (parseFloat g1) as [q1|]; [|discriminate].
    destruct (parseFloat g2) as [q2|]; [|discriminate].
    destruct (parseFloat (d :: rr)) as [q3|] eqn:E3; [|discriminate].
    injection P as _ _ <-. exact (parseFloat_digit_nonneg d rr q3 Hd E3). }
  unfold extractMapParameters. split.
  - intros a b z.
    destruct (first_match "z"%char (chars u)) as [[[g1 g2] g3]|] eqn:Ez.
    + destruct (parse3 (g1, g2, g3)) as [[[a' b'] c']|] eqn:P.
      * intros [= _ _ <-]. exact (G _ _ _ _ _ _ _ _ Ez P).
      * destruct (first_match "m"%char (chars u)) as [g|]; [|discriminate].
        destruct (parse3 g) as [[[? ?] ?]|]; discriminate.
    + destruct (first_match "m"%char (chars u)) as [g|]; [|discriminate].
      destruct (parse3 g) as [[[? ?] ?]|]; discriminate.
  - intros a b m.
    destruct (match first_match "z"%char (chars u) with Some g => parse3 g | None => None end)
      as [[[? ?] ?]|]; [discriminate|].
    destruct (first_match "m"%char (chars u)) as [[[g1 g2] g3]|] eqn:Em; [|discriminate].
    destruct (parse3 (g1, g2, g3)) as [[[a' b'] c']|] eqn:P; [|discriminate].
    intros [= _ _ <-]. exact (G _ _ _ _ _ _ _ _ Em P).
Qed.

(** X18: a URL in the form Google Maps writes, [...@lat,lng,zoomz...] with
    decimal numbers and no earlier [@], gives back those three numbers. *)
Lemma extractMapParameters_roundtrip (pre rest : list ascii)
  (nlat nlng : bool) (ilat flat ilng flng iz fz : list ascii) :
  ~ In "@"%char pre ->
  ilat <> [] -> ilng <> [] -> iz <> [] ->
  forallb is_digit (ilat ++ flat ++ ilng ++ flng ++ iz ++ fz) = true ->
  exists lat lng zoom,
    extractMapParameters
      (string_of_list_ascii (pre ++ "@"%char :: decimal nlat ilat flat ++ ","%char ::
                             decimal nlng ilng flng ++ ","%char :: decimal false iz fz ++
                             "z"%char :: rest))
    = Some (ZoomParams lat lng zoom) /\
    (lat == decimal_value nlat ilat flat)%Q /\ (lng == decimal_value nlng ilng flng)%Q /\
    (zoom == decimal_value false iz fz)%Q.
Proof.
  intros Npre N1 N2 N3 D. rewrite !forallb_app in D.
  repeat match goal with H : _ && _ = true |- _ => apply andb_true_iff in H as [? ?] end.
  unfold extractMapParameters, chars. rewrite list_ascii_of_string_of_list_ascii.
  unfold first_match. rewrite first_match_with_skip.
  2:{ intros c r Hc. destruct (Ascii.eqb_spec c "@"%char) as [->|Hn]; [contradiction|].
      simpl. destruct (Ascii.eqb_spec c "@"%char); [contradiction|reflexivity]. }
  simpl first_match_with.
  unfold match_at at 1. rewrite ?Ascii.eqb_refl.
  rewrite (span_app _ _ _ _ (decimal_num_char nlat ilat flat ltac:(assumption) ltac:(assumption))
             (eq_refl : is_num_char ","%char = false)).
  assert (Ne : forall n i f, i <> [] -> exists c r, decimal n i f = c :: r).
  { intros n i f Hi0. destruct n; [|destruct i; [contradiction|]]; eexists; eexists; reflexivity. }
  destruct (Ne nlat ilat flat N1) as [c1 [r1 E1]]. rewrite E1. cbv iota.
  rewrite ?Ascii.eqb_refl.
  rewrite (span_app _ _ _ _ (decimal_num_char nlng ilng flng ltac:(assumption) ltac:(assumption))
             (eq_refl : is_num_char ","%char = false)).
  destruct (Ne nlng ilng flng N2) as [c2 [r2 E2]]. rewrite E2. cbv iota.
  rewrite ?Ascii.eqb_refl. rewrite <- E1, <- E2.
  rewrite match_number_then_decimal by (assumption || reflexivity).
  destruct (parseFloat_decimal nlat ilat flat) as [a [Pa Ea]]; try assumption.
  destruct (parseFloat_decimal nlng ilng flng) as [b [Pb Eb]]; try assumption.
  destruct (parseFloat_decimal false iz fz) as [z [Pz Ez]]; try assumption.
  unfold parse3. rewrite Pa, Pb, Pz. exists a, b, z. auto.
Qed.

Lemma extractMapParameters_roundtrip_witness :
  (~ In "@"%char (chars "https://www.google.com/maps/") /\
   ["3";"7"]%char <> [] /\ ["1";"2";"2"]%char <> [] /\ ["1";"2"]%char <> [] /\
   forallb is_digit (["3";"7"] ++ ["7";"7";"4";"9"] ++ ["1";"2";"2"] ++ ["4";"1";"9";"4"]
                     ++ ["1";"2"] ++ [])%char = true) /\
  exists lat lng zoom,
    extractMapParameters
      (string_of_list_ascii (chars "https://www.google.com/maps/" ++ "@"%char ::
         decimal false ["3";"7"]%char ["7";"7";"4";"9"]%char ++ ","%char ::
         decimal true ["1";"2";"2"]%char ["4";"1";"9";"4"]%char ++ ","%char ::
         decimal false ["1";"2"]%char [] ++ "z"%char :: chars "/data=!3m1"))
    = Some (ZoomParams lat lng zoom) /\
    (lat == decimal_value false ["3";"7"]%char ["7";"7";"4";"9"]%char)%Q /\
    (lng == decimal_value true ["1";"2";"2"]%char ["4";"1";"9";"4"]%char)%Q /\
    (zoom == decimal_value false ["1";"2"]%char [])%Q.
Proof.
  assert (H : ~ In "@"%char (chars "https://www.google.com/maps/"))
    by (apply not_at_forallb; reflexivity).
  split; [split; [exact H | repeat split; (discriminate || reflexivity)]|].
  apply (extractMapParameters_roundtrip _ _ false true); (exact H || discriminate || reflexivity).
Defined.

End URLParserExtra.

Module LegacyExtra.
Import Legacy.
Open Scope R_scope.

(** X19: the raster label projection with 256-pixel tiles is the coordinate
    transformer's projection, and with the 512-pixel tiles of high-density
    displays it is that projection one zoom level further in. *)
Lemma labelLatLngToPoint_tileSize (lat lng zoom : R) :
  labelLatLngToPoint 256 lat lng zoom = Projection.googleMapsLatLngToPoint lat lng zoom /\
  labelLatLngToPoint 512 lat lng zoom = Projection.googleMapsLatLngToPoint lat lng (zoom + 1).
Proof.
  unfold labelLatLngToPoint, Projection.googleMapsLatLngToPoint, Projection.worldSize.
  split; [reflexivity|].
  rewrite Rpower_plus, Rpower_1 by lra.
  replace (Rpower 2 zoom * 2 * 256) with (Rpower 2 zoom * IZR 512) by (simpl; lra).
  reflexivity.
Qed.

End LegacyExtra.
